(** * oopsie.js: a shallow embedding of the error registry, the serializer,
      the audit wrapper and the reporting pipeline.

    The definitions follow src/oopsie.js function by function and keep its
    names.  JavaScript values live in an explicit heap of objects, so that
    identity, mutation and cyclic graphs are what they are in the source.
    Library state (errors, errorFactories, translators, reportHandlers, the
    oopsie namespace) is threaded through a small state-and-exception monad.
    What the page and the engine contribute (the code behind function
    objects and getters, the global named message, the members every object
    inherits) is a parameter, the record Host.

    The active circularRefSafeTranslate in the source lost the brace that
    closes its catch block; the embedding reads it with the block structure of
    the commented-out version just below it in the source. *)

From Stdlib Require Import String Ascii List Bool Arith ZArith Lia.
From Stdlib Require Import DecimalString DecimalNat.
Import ListNotations.
Open Scope string_scope.

(* ================================================================== *)
(** ** Strings *)

Definition nl : string := String (ascii_of_nat 10) EmptyString.
Definition dquote : string := String (ascii_of_nat 34) EmptyString.

(** Decimal text of an array index, as string concatenation prints it. *)
Definition dec (n : nat) : string := NilEmpty.string_of_uint (Nat.to_uint n).

(** [parseInt(digits, 10)] on a run of decimal digits. *)
Definition parseInt (digits : string) : nat :=
  match NilEmpty.uint_of_string digits with
  | Some d => Nat.of_uint d
  | None => 0
  end.

Definition is_digit (c : ascii) : bool :=
  let n := nat_of_ascii c in Nat.leb 48 n && Nat.leb n 57.

(** [prefix_rest p s] is what follows [p] when [s] starts with [p]. *)
Fixpoint prefix_rest (p s : string) : option string :=
  match p with
  | EmptyString => Some s
  | String a p' =>
      match s with
      | EmptyString => None
      | String b s' => if Ascii.eqb a b then prefix_rest p' s' else None
      end
  end.

(** The longest run of digits at the head of [s], and the rest. *)
Fixpoint span_digits (s : string) : string * string :=
  match s with
  | EmptyString => (EmptyString, EmptyString)
  | String c s' =>
      if is_digit c
      then let (d, r) := span_digits s' in (String c d, r)
      else (EmptyString, s)
  end.

(** Every character of a string is a digit. *)
Fixpoint all_digits (s : string) : bool :=
  match s with
  | EmptyString => true
  | String c s' => is_digit c && all_digits s'
  end.

(** [s.replace(pat, rep)] with a string pattern: the first occurrence only. *)
Fixpoint String_replace (pat rep s : string) : string :=
  match prefix_rest pat s with
  | Some r => rep ++ r
  | None =>
      match s with
      | EmptyString => EmptyString
      | String c s' => String c (String_replace pat rep s')
      end
  end.

(** [xs.join(sep)] on strings. *)
Fixpoint join (sep : string) (xs : list string) : string :=
  match xs with
  | [] => EmptyString
  | [x] => x
  | x :: rest => x ++ sep ++ join sep rest
  end.

(* ================================================================== *)
(** ** The identifier token: errorIdRegExp = /__oopsieID_(\d+)__/ *)

Definition marker_prefix : string := "__oopsieID_".
Definition marker_suffix : string := "__".

(** The result of [msg.match(errorIdRegExp)]: m.index, m[0] and m[1]. *)
Record regexp_match : Type := mkMatch {
  m_index : nat;
  m_0 : string;
  m_1 : string
}.

(** A match anchored at the head of [s].  [\d+] is greedy; a digit is never
    an underscore, so giving digits back cannot make the suffix match. *)
Definition match_here (s : string) : option (string * string) :=
  match prefix_rest marker_prefix s with
  | None => None
  | Some r =>
      let (d, r') := span_digits r in
      match d with
      | EmptyString => None
      | String _ _ =>
          match prefix_rest marker_suffix r' with
          | Some _ => Some (marker_prefix ++ d ++ marker_suffix, d)
          | None => None
          end
      end
  end.

(** Leftmost match, scanning from index [i]. *)
Fixpoint exec_from (i : nat) (s : string) : option regexp_match :=
  match match_here s with
  | Some (whole, d) => Some (mkMatch i whole d)
  | None =>
      match s with
      | EmptyString => None
      | String _ s' => exec_from (S i) s'
      end
  end.

Definition errorIdRegExp_exec (msg : string) : option regexp_match :=
  exec_from 0 msg.

(** The token registerError puts in front of a message. *)
Definition oopsieID (pos : nat) : string :=
  marker_prefix ++ dec pos ++ marker_suffix.

(* ================================================================== *)
(** ** JavaScript values, objects and the heap *)


(** Numbers: the integers a double holds exactly, and the three values the
    serializer singles out.  Fractions, and the exponent notation JavaScript
    prints from 1e21 on, are outside the model. *)
Inductive number : Type :=
| Fin (z : Z)
| NaN
| PosInfinity
| NegInfinity.

Definition loc : Type := nat.

Inductive value : Type :=
| VUndefined
| VNull
| VBool (b : bool)
| VNum (n : number)
| VStr (s : string)
| VObj (l : loc).

Inductive oclass : Type :=
| CObject
| CArray
| CFunction
| CRegExp (text : string)
| CError.

(** An own property.  A property holds a value.  When the member is an
    accessor property instead, the value kept here is not what a read gives:
    that is the result of its getter, which the host supplies (getter, in
    Host below). *)
Record prop : Type := mkProp {
  p_key : string;
  p_val : value;
  p_enum : bool
}.

(** An object: its class and its own properties in the order a for-in loop
    visits them (for an array: its elements in index order, each under its
    index as key). *)
Record obj : Type := mkObj {
  o_class : oclass;
  o_props : list prop
}.

Definition heap : Type := list obj.

(** What a [throw] carries: an error object raised by the engine or by a
    host library (it has a name and a message), or any value thrown by
    [throw v]. *)
Inductive thrown : Type :=
| ThrowNative (name message : string)
| ThrowValue (v : value).

Inductive outcome (A : Type) : Type :=
| Ret (a : A)
| Throw (e : thrown).
Arguments Ret {A} a.
Arguments Throw {A} e.

Inductive jstype : Type :=
| TUndefined | TObject | TBoolean | TNumber | TString | TFunction.

Definition jstype_eqb (a b : jstype) : bool :=
  match a, b with
  | TUndefined, TUndefined | TObject, TObject | TBoolean, TBoolean
  | TNumber, TNumber | TString, TString | TFunction, TFunction => true
  | _, _ => false
  end.

Definition class_of (h : heap) (l : loc) : oclass :=
  match nth_error h l with
  | Some o => o_class o
  | None => CObject
  end.

Definition props_of (h : heap) (l : loc) : list prop :=
  match nth_error h l with
  | Some o => o_props o
  | None => []
  end.

Definition typeof (h : heap) (v : value) : jstype :=
  match v with
  | VUndefined => TUndefined
  | VNull => TObject
  | VBool _ => TBoolean
  | VNum _ => TNumber
  | VStr _ => TString
  | VObj l => match class_of h l with CFunction => TFunction | _ => TObject end
  end.

Definition typeof_thrown (h : heap) (e : thrown) : jstype :=
  match e with
  | ThrowNative _ _ => TObject
  | ThrowValue v => typeof h v
  end.

Definition number_eqb (a b : number) : bool :=
  match a, b with
  | Fin x, Fin y => Z.eqb x y
  | PosInfinity, PosInfinity | NegInfinity, NegInfinity => true
  | _, _ => false
  end.

(** Strict equality [a === b]: NaN differs from itself, objects compare by
    identity. *)
Definition strict_eqb (a b : value) : bool :=
  match a, b with
  | VUndefined, VUndefined | VNull, VNull => true
  | VBool x, VBool y => Bool.eqb x y
  | VNum x, VNum y => number_eqb x y
  | VStr x, VStr y => String.eqb x y
  | VObj x, VObj y => Nat.eqb x y
  | _, _ => false
  end.

Definition truthy (v : value) : bool :=
  match v with
  | VUndefined | VNull | VBool false | VNum NaN | VStr EmptyString => false
  | VNum (Fin z) => negb (Z.eqb z 0)
  | _ => true
  end.

Fixpoint find_prop (k : string) (ps : list prop) : option prop :=
  match ps with
  | [] => None
  | p :: rest => if String.eqb (p_key p) k then Some p else find_prop k rest
  end.

(** [hasOwn(context, name)] on an object of the heap. *)
Definition hasOwn (h : heap) (l : loc) (name : string) : bool :=
  match find_prop name (props_of h l) with Some _ => true | None => false end.

(** [o[k]] on an object: the own property, else what the prototype gives.
    Of the prototypes only Error.prototype.message (the empty string) is
    read by this library. *)
Definition get_prop (h : heap) (l : loc) (k : string) : value :=
  match find_prop k (props_of h l) with
  | Some p => p_val p
  | None =>
      match class_of h l with
      | CError => if String.eqb k "message" then VStr EmptyString else VUndefined
      | _ => VUndefined
      end
  end.

(** [v.k] on any value: reading a property of undefined or null raises. *)
Definition get (h : heap) (v : value) (k : string) : outcome value :=
  match v with
  | VUndefined =>
      Throw (ThrowNative "TypeError" ("Cannot read property '" ++ k ++ "' of undefined"))
  | VNull =>
      Throw (ThrowNative "TypeError" ("Cannot read property '" ++ k ++ "' of null"))
  | VObj l => Ret (get_prop h l k)
  | VStr s =>
      if String.eqb k "length" then Ret (VNum (Fin (Z.of_nat (String.length s))))
      else Ret VUndefined
  | _ => Ret VUndefined
  end.

(** [err.message] for a caught value. *)
Definition thrown_message (h : heap) (err : thrown) : outcome value :=
  match err with
  | ThrowNative _ m => Ret (VStr m)
  | ThrowValue v => get h v "message"
  end.

(** [o[k] = v]: an existing own property keeps its place and its
    enumerability; a new one is appended, enumerable. *)
Fixpoint put_prop (k : string) (v : value) (ps : list prop) : list prop :=
  match ps with
  | [] => [mkProp k v true]
  | p :: rest =>
      if String.eqb (p_key p) k then mkProp k v (p_enum p) :: rest
      else p :: put_prop k v rest
  end.

Fixpoint update_nth {A : Type} (n : nat) (f : A -> A) (xs : list A) : list A :=
  match xs, n with
  | [], _ => []
  | x :: rest, 0 => f x :: rest
  | x :: rest, S n' => x :: update_nth n' f rest
  end.

Definition heap_put (h : heap) (l : loc) (k : string) (v : value) : heap :=
  update_nth l (fun o => mkObj (o_class o) (put_prop k v (o_props o))) h.

(** The own enumerable properties a [for in] or [$.extend] visits. *)
Definition enumerable (ps : list prop) : list prop :=
  filter p_enum ps.

Definition dec_Z (z : Z) : string := NilEmpty.string_of_int (Z.to_int z).

Definition number_text (n : number) : string :=
  match n with
  | Fin z => dec_Z z
  | NaN => "NaN"
  | PosInfinity => "Infinity"
  | NegInfinity => "-Infinity"
  end.

(* ================================================================== *)
(** ** The host environment *)

(** What a call of a member inherited from Object.prototype gives: a
    result or a throw, and the objects the call created, which go to the end
    of the heap. *)
Definition builtin : Type := heap -> value -> value -> outcome value * list obj.

(** What the library takes from its surroundings:
    - the optional window.printStackTrace (its result may differ from call
      to call, here by the number of errors registered so far);
    - the jQuery and DOM calls behind jQueryToString, which return markup or
      raise;
    - the text an object's own toString method produces;
    - the code of the page behind a function object of the heap:
      [call h f this args] is what f.apply(this, args) gives.  The built-in
      JSON.stringify runs such code when a value has a toJSON method;
    - the accessor properties: [getter h l k] is [Some r] when member k of
      object l is an accessor property, r being what its getter gives.  The
      built-in JSON.stringify reads members through it; the reads the library
      itself does (err.type, err.message, the options it is given) are
      modelled as reads of data properties;
    - the global variable named message, when the page has one (a global
      declaration, or an element whose id is message);
    - the members a plain object literal inherits from Object.prototype,
      by name, as functions of the two arguments makeError calls them with
      (as plain functions in strict code: [this] is undefined).  They are
      not enumerable, as the members the standard puts there are not: a
      for-in loop over a table does not visit them. *)
Record Host : Type := mkHost {
  printStackTrace : option (nat -> list string);
  jQueryToString : heap -> value -> outcome string;
  objectText : heap -> loc -> string;
  call : heap -> loc -> value -> list value -> outcome value;
  getter : heap -> loc -> string -> option (outcome value);
  global_message : option value;
  inherited : string -> option builtin
}.

Definition not_a_function (what : string) : thrown :=
  ThrowNative "TypeError" (what ++ " is not a function").

Definition undefined_to_object : thrown :=
  ThrowNative "TypeError" "Cannot convert undefined or null to object".

(** The own properties of the wrapper object Object(text) makes for a
    string: its characters under their indices. *)
Fixpoint wrapper_props (i : nat) (text : string) : list prop :=
  match text with
  | EmptyString => []
  | String c rest => mkProp (dec i) (VStr (String c EmptyString)) true
                     :: wrapper_props (S i) rest
  end.

(** The members of Object.prototype in an ES5 browser, called with [this]
    undefined.  Object(msg), behind the name constructor, hands an object
    back, makes a new one for undefined and null and a wrapper for a
    primitive (kept here by its own properties); isPrototypeOf answers false
    for a value that is not an object before it looks at [this]; __proto__
    is an object, not a function. *)
Definition Object_prototype (name : string) : option builtin :=
  if String.eqb name "toString"
  then Some (fun _ _ _ => (Ret (VStr "[object Undefined]"), []))
  else if String.eqb name "constructor"
  then Some (fun h msg _ =>
               match msg with
               | VObj l => (Ret msg, [])
               | VUndefined | VNull => (Ret (VObj (List.length h)), [mkObj CObject []])
               | VStr text =>
                   (Ret (VObj (List.length h)),
                    [mkObj CObject
                           (wrapper_props 0 text ++
                            [mkProp "length" (VNum (Fin (Z.of_nat (String.length text))))
                                    false])%list])
               | _ => (Ret (VObj (List.length h)), [mkObj CObject []])
               end)
  else if String.eqb name "isPrototypeOf"
  then Some (fun _ msg _ =>
               match msg with
               | VObj _ => (Throw undefined_to_object, [])
               | _ => (Ret (VBool false), [])
               end)
  else if String.eqb name "valueOf" || String.eqb name "toLocaleString"
          || String.eqb name "hasOwnProperty" || String.eqb name "propertyIsEnumerable"
          || String.eqb name "__defineGetter__" || String.eqb name "__defineSetter__"
          || String.eqb name "__lookupGetter__" || String.eqb name "__lookupSetter__"
  then Some (fun _ _ _ => (Throw undefined_to_object, []))
  else if String.eqb name "__proto__"
  then Some (fun _ _ _ => (Throw (not_a_function "factory"), []))
  else None.

(** A browser without the stack-trace library, whose DOM serialization
    fails, whose objects print as Object.prototype.toString prints them,
    whose functions return undefined, and whose page has no accessor
    properties and no global named message; the worked examples run in it. *)
Definition browser : Host :=
  mkHost None
         (fun _ _ => Throw (ThrowNative "TypeError" "$o.clone is not a function"))
         (fun _ _ => "[object Object]")
         (fun _ _ _ _ => Ret VUndefined)
         (fun _ _ _ => None)
         None
         Object_prototype.

(** The same browser with a DOM serialization that throws null. *)
Definition throwing_null : Host :=
  mkHost None (fun _ _ => Throw (ThrowValue VNull)) (fun _ _ => "[object Object]")
         (call browser) (getter browser) None Object_prototype.

(** The same browser on a page whose functions all throw null: the
    toJSON method of the failing input of stringify is one of them. *)
Definition throwing_functions : Host :=
  mkHost None (jQueryToString browser) (objectText browser)
         (fun _ _ _ _ => Throw (ThrowValue VNull))
         (getter browser) None Object_prototype.

(** The same browser on a page where every member named secret is an
    accessor property whose getter throws undefined. *)
Definition throwing_getter : Host :=
  mkHost None (jQueryToString browser) (objectText browser) (call browser)
         (fun _ _ k => if String.eqb k "secret"
                       then Some (Throw (ThrowValue VUndefined)) else None)
         None Object_prototype.

(** The same browser on a page with an element whose id is message: the
    global variable message is that element, the object at [element]. *)
Definition page_with_message (element : loc) : Host :=
  mkHost None (jQueryToString browser) (objectText browser) (call browser)
         (getter browser) (Some (VObj element)) Object_prototype.

(** One step of the structured walk: it raised, or it produced [a] and left
    the seen list as [seen]. *)
Inductive step (A : Type) : Type :=
| Raised (e : thrown)
| Done (a : A) (seen : list value).
Arguments Raised {A} e.
Arguments Done {A} a seen.

Section Serializer.

Variable env : Host.

(** [value.toString()] and the conversion string concatenation applies. *)
Definition to_string (h : heap) (v : value) : string :=
  match v with
  | VUndefined => "undefined"
  | VNull => "null"
  | VBool true => "true"
  | VBool false => "false"
  | VNum n => number_text n
  | VStr s => s
  | VObj l =>
      match class_of h l with
      | CRegExp text => text
      | _ => objectText env h l
      end
  end.

(** An element as [Array.prototype.join] prints it. *)
Definition join_item (h : heap) (v : value) : string :=
  match v with
  | VUndefined | VNull => EmptyString
  | _ => to_string h v
  end.

Definition array_join (h : heap) (sep : string) (vs : list value) : string :=
  join sep (map (join_item h) vs).

(* ------------------------------------------------------------------ *)
(** *** Translators *)

(** A translator is the pair [evaluator, translator] of functions that
    addTranslator stores; either may raise. *)
Record translator : Type := mkTranslator {
  t_evaluator : heap -> value -> outcome value;
  t_translator : heap -> value -> outcome value
}.

Definition isFunction (h : heap) (v : value) : bool :=
  jstype_eqb (typeof h v) TFunction.

Definition getFunctionName (h : heap) (fn : value) : value :=
  match fn with
  | VObj l =>
      if hasOwn h l "name"
      then let name := get_prop h l "name" in
           if strict_eqb name (VStr EmptyString) then VStr "anonymous" else name
      else VStr EmptyString
  | _ => VStr EmptyString
  end.

Definition isReallyNaN (v : value) : bool :=
  match v with VNum NaN => true | _ => false end.

Definition isInfinite (v : value) : bool :=
  strict_eqb v (VNum PosInfinity) || strict_eqb v (VNum NegInfinity).

(** [obj && obj.jquery] *)
Definition isJQuery (h : heap) (v : value) : outcome value :=
  if truthy v then get h v "jquery" else Ret v.

Definition translator_undefined : translator :=
  mkTranslator (fun _ v => Ret (VBool (strict_eqb v VUndefined)))
               (fun _ _ => Ret (VStr "undefined")).

Definition translator_function : translator :=
  mkTranslator (fun h v => Ret (VBool (isFunction h v)))
               (fun h v =>
                  let fnName := getFunctionName h v in
                  if truthy fnName
                  then Ret (VStr ("[function: " ++ to_string h fnName ++ "]"))
                  else Ret (VStr "[function]")).

Definition translator_RegExp : translator :=
  mkTranslator (fun h v =>
                  Ret (VBool match v with
                             | VObj l => match class_of h l with
                                         | CRegExp _ => true
                                         | _ => false
                                         end
                             | _ => false
                             end))
               (fun h v => Ret (VStr (to_string h v))).

Definition translator_NaN : translator :=
  mkTranslator (fun _ v => Ret (VBool (isReallyNaN v)))
               (fun _ _ => Ret (VStr "NaN")).

Definition translator_infinite : translator :=
  mkTranslator (fun _ v => Ret (VBool (isInfinite v)))
               (fun h v => Ret (VStr (to_string h v))).

Definition translator_jQuery : translator :=
  mkTranslator isJQuery
               (fun h v =>
                  match jQueryToString env h v with
                  | Ret markup => Ret (VStr ("[jQuery: " ++ markup ++ "]"))
                  | Throw e => Throw e
                  end).

(** The translators the library registers while loading, in that order. *)
Definition default_translators : list (string * translator) :=
  [ ("undefined", translator_undefined);
    ("function", translator_function);
    ("RegExp", translator_RegExp);
    ("NaN", translator_NaN);
    ("infinite", translator_infinite);
    ("jQuery", translator_jQuery) ].

(** The [for (var k in translators)] loop: the first translator whose
    evaluator answers truthy translates the value. *)
Fixpoint apply_translators (ts : list (string * translator))
         (h : heap) (v : value) : outcome value :=
  match ts with
  | [] => Ret v
  | (_, t) :: rest =>
      match t_evaluator t h v with
      | Throw e => Throw e
      | Ret hit =>
          if truthy hit then t_translator t h v
          else apply_translators rest h v
      end
  end.

(** [$.inArray(value, seen)]: the first position holding the same value. *)
Fixpoint inArray (v : value) (seen : list value) : option nat :=
  match seen with
  | [] => None
  | x :: rest =>
      if strict_eqb x v then Some 0
      else option_map S (inArray v rest)
  end.

(** The function circularRefSafeTranslate returns, with its [seen] array
    made explicit.  The key argument is not used by the source. *)
Definition circularRefSafeTranslate (ts : list (string * translator))
           (h : heap) (seen : list value) (v : value) : step value :=
  let tried : outcome value * list value :=
    let translate (seen' : list value) := (apply_translators ts h v, seen') in
    if jstype_eqb (typeof h v) TObject then
      match inArray v seen with
      | None => translate (seen ++ [v])%list
      | Some seenAt => (Ret (VStr ("JSON.circularRef_" ++ dec seenAt)), seen)
      end
    else translate seen in
  match tried with
  | (Ret r, seen') => Done r seen'
  | (Throw err, seen') =>
      match thrown_message h err with
      | Ret m => Done (VStr ("[translation error]: " ++ to_string h m)) seen'
      | Throw e => Raised e
      end
  end.

(* ------------------------------------------------------------------ *)
(** *** JSON.stringify(o, replacer, '') *)

Definition hex_digit (n : nat) : ascii :=
  ascii_of_nat (if Nat.ltb n 10 then 48 + n else 87 + n).

(** One character inside a JSON string literal. *)
Definition quote_char (c : ascii) : string :=
  let n := nat_of_ascii c in
  let bs := String (ascii_of_nat 92) EmptyString in
  if Nat.eqb n 34 then bs ++ dquote
  else if Nat.eqb n 92 then bs ++ bs
  else if Nat.eqb n 8 then bs ++ "b"
  else if Nat.eqb n 12 then bs ++ "f"
  else if Nat.eqb n 10 then bs ++ "n"
  else if Nat.eqb n 13 then bs ++ "r"
  else if Nat.eqb n 9 then bs ++ "t"
  else if Nat.ltb n 32
       then bs ++ "u00" ++ String (hex_digit (n / 16)) (String (hex_digit (n mod 16)) EmptyString)
  else String c EmptyString.

Fixpoint quote_body (s : string) : string :=
  match s with
  | EmptyString => EmptyString
  | String c s' => quote_char c ++ quote_body s'
  end.

Definition Quote (s : string) : string := dquote ++ quote_body s ++ dquote.

(** What serializing one property yields: its text, or undefined (the
    property is then left out of an object and printed null in an array). *)
Inductive jtext : Type :=
| JText (s : string)
| JUndefined.

(** [holder[key]] as the built-in reads it: through the getter when the
    member is an accessor property. *)
Definition read (h : heap) (l : loc) (k : string) : outcome value :=
  match getter env h l k with
  | Some r => r
  | None => Ret (get_prop h l k)
  end.

(** The first step of the built-in on a property value: when the value is an
    object whose toJSON member is a function, [value.toJSON(key)] takes its
    place. *)
Definition toJSON (h : heap) (key : string) (v : value) : outcome value :=
  match v with
  | VObj l =>
      match read h l "toJSON" with
      | Throw e => Throw e
      | Ret (VObj f) =>
          if isFunction h (VObj f) then call env h f v [VStr key] else Ret v
      | Ret _ => Ret v
      end
  | _ => Ret v
  end.

(** The members of an object, left to right, threading the seen list:
    each member is read from the holder ([slot]), then serialized under its
    key ([rec]). *)
Fixpoint members (rec : list value -> string -> value -> option (step jtext))
         (slot : string -> outcome value)
         (keys : list string) (seen : list value) : option (step (list string)) :=
  match keys with
  | [] => Some (Done [] seen)
  | k :: rest =>
      match slot k with
      | Throw e => Some (Raised e)
      | Ret x =>
          match rec seen k x with
          | None => None
          | Some (Raised e) => Some (Raised e)
          | Some (Done r seen1) =>
              match members rec slot rest seen1 with
              | None => None
              | Some (Raised e) => Some (Raised e)
              | Some (Done ms seen2) =>
                  match r with
                  | JText t => Some (Done ((Quote k ++ ":" ++ t) :: ms) seen2)
                  | JUndefined => Some (Done ms seen2)
                  end
              end
          end
      end
  end.

(** The elements of an array. *)
Fixpoint elements (rec : list value -> string -> value -> option (step jtext))
         (slot : string -> outcome value)
         (keys : list string) (seen : list value) : option (step (list string)) :=
  match keys with
  | [] => Some (Done [] seen)
  | k :: rest =>
      match slot k with
      | Throw e => Some (Raised e)
      | Ret x =>
          match rec seen k x with
          | None => None
          | Some (Raised e) => Some (Raised e)
          | Some (Done r seen1) =>
              match elements rec slot rest seen1 with
              | None => None
              | Some (Raised e) => Some (Raised e)
              | Some (Done ms seen2) =>
                  Some (Done (match r with JText t => t | JUndefined => "null" end :: ms)
                             seen2)
              end
          end
      end
  end.

Definition cyclic_error : thrown :=
  ThrowNative "TypeError" "Converting circular structure to JSON".

(** The property serialization of JSON.stringify with the replacer in place:
    the value's toJSON method first, then the replacer, then the text of what
    the replacer gave.  [stack] holds the objects being serialized, as the
    built-in keeps them to refuse cyclic structures; [seen] is the replacer's
    array.  What toJSON or a getter throws leaves the built-in as it is: the
    replacer's try block is not around them.  [None] means the fuel ran
    out. *)
Fixpoint Str (fuel : nat) (ts : list (string * translator)) (h : heap)
         (stack : list loc) (seen : list value) (key : string) (v : value)
  : option (step jtext) :=
  match fuel with
  | 0 => None
  | S fuel' =>
      match toJSON h key v with
      | Throw e => Some (Raised e)
      | Ret v0 =>
      match circularRefSafeTranslate ts h seen v0 with
      | Raised e => Some (Raised e)
      | Done v' seen1 =>
          match v' with
          | VUndefined => Some (Done JUndefined seen1)
          | VNull => Some (Done (JText "null") seen1)
          | VBool true => Some (Done (JText "true") seen1)
          | VBool false => Some (Done (JText "false") seen1)
          | VStr s => Some (Done (JText (Quote s)) seen1)
          | VNum (Fin z) => Some (Done (JText (dec_Z z)) seen1)
          | VNum _ => Some (Done (JText "null") seen1)
          | VObj l =>
              match class_of h l with
              | CFunction => Some (Done JUndefined seen1)
              | c =>
                  if existsb (Nat.eqb l) stack then Some (Raised cyclic_error)
                  else
                    let rec := Str fuel' ts h (l :: stack) in
                    match c with
                    | CArray =>
                        match elements rec (read h l) (map p_key (props_of h l)) seen1 with
                        | None => None
                        | Some (Raised e) => Some (Raised e)
                        | Some (Done ms seen2) =>
                            Some (Done (JText ("[" ++ join "," ms ++ "]")) seen2)
                        end
                    | _ =>
                        match members rec (read h l)
                                      (map p_key (enumerable (props_of h l))) seen1 with
                        | None => None
                        | Some (Raised e) => Some (Raised e)
                        | Some (Done ms seen2) =>
                            Some (Done (JText ("{" ++ join "," ms ++ "}")) seen2)
                        end
                    end
              end
          end
      end
      end
  end.

(** The objects of the heap that are not on the stack: the walk can still
    descend into these. *)
Definition unvisited (h : heap) (stack : list loc) : nat :=
  List.length (filter (fun l => negb (existsb (Nat.eqb l) stack))
                      (seq 0 (List.length h))).

(** A step that ended: with a result, or with a throw of the kind [P]. *)
Definition ended {A : Type} (P : thrown -> Prop) (r : option (step A)) : Prop :=
  match r with
  | Some (Raised e) => P e
  | Some (Done _ _) => True
  | None => False
  end.

(** An error object of the engine. *)
Definition native (e : thrown) : Prop :=
  match e with
  | ThrowNative _ _ => True
  | ThrowValue _ => False
  end.

(** A heap the built-in runs no code of the page on: no member is an
    accessor property and no toJSON member holds a function. *)
Definition passive (h : heap) : Prop :=
  (forall l k, getter env h l k = None)
  /\ (forall l, isFunction h (get_prop h l "toJSON") = false).

(** A value the built-in turns into text: not undefined, not a function. *)
Definition printable (h : heap) (v : value) : Prop :=
  match v with
  | VUndefined => False
  | VObj l => class_of h l <> CFunction
  | _ => True
  end.

Definition JSON_stringify (fuel : nat) (ts : list (string * translator))
           (h : heap) (o : value) : option (outcome value) :=
  match Str fuel ts h [] [] EmptyString o with
  | None => None
  | Some (Raised e) => Some (Throw e)
  | Some (Done (JText s) _) => Some (Ret (VStr s))
  | Some (Done JUndefined _) => Some (Ret VUndefined)
  end.

(** stringify, with the fuel of the walk explicit. *)
Definition stringify_fuel (fuel : nat) (ts : list (string * translator))
           (h : heap) (o : value) : option (outcome value) :=
  match JSON_stringify fuel ts h o with
  | None => None
  | Some (Ret text) => Some (Ret text)
  | Some (Throw err) =>
      Some match thrown_message h err with
           | Ret m => Ret (VStr ("stringify error: " ++ to_string h m))
           | Throw e => Throw e
           end
  end.

(** The walk never nests deeper than the heap has objects, so this much fuel
    is enough (stringify_fuel_total below); the last branch is not reached. *)
Definition stringify (ts : list (string * translator)) (h : heap) (o : value)
  : outcome value :=
  match stringify_fuel (S (List.length h)) ts h o with
  | Some r => r
  | None => Ret (VStr "stringify error: Maximum call stack size exceeded")
  end.

End Serializer.

(* ================================================================== *)
(** ** Library state *)

(** A gate is the $.Deferred handed to a before hook; the hook is known by
    the calls it makes on it, in order. *)
Inductive gate_call : Type :=
| resolve (args : list value)
| reject (args : list value).

Inductive gate_state : Type :=
| Pending
| Resolved
| Rejected.

(** An after hook: $.noop, or a function of the application, named by a
    number so that its calls can be told apart. *)
Inductive after_fn : Type :=
| noop
| after_hook (id : nat).

(** A field of a handler object: missing or undefined, holding something
    that is not a function, or holding a function. *)
Inductive field (A : Type) : Type :=
| Missing
| NotCallable (v : value)
| Callable (f : A).
Arguments Missing {A}.
Arguments NotCallable {A} v.
Arguments Callable {A} f.

Record handler : Type := mkHandler {
  before : field (list gate_call);
  after : field after_fn
}.

(** What oopsie.report is bound to.  The library installs the namespace
    object { reporter: null, addHandler: addHandler }; an application fills
    in the reporter field, or may rebind oopsie.report to a function. *)
Inductive report_slot : Type :=
| ReportNamespace (reporter : option nat)
| ReportFunction (id : nat).

(** Calls that leave the library. *)
Inductive event : Type :=
| EvAlert (msg : string)
| EvDebugger
| EvReporter (id : nat) (args : list value)
| EvAfter (id : nat).

Definition options : Type := list (string * value).

Record state : Type := mkState {
  store : heap;
  errors : list value;
  errorFactories : list (string * options);
  translators : list (string * translator);
  reportHandlers : list (string * handler);
  alertOnAssertFailure : value;
  debugOnAssertFailure : value;
  oopsie_report : report_slot;
  trace : list event
}.

Definition set_store (h : heap) (s : state) : state :=
  mkState h (errors s) (errorFactories s) (translators s) (reportHandlers s)
          (alertOnAssertFailure s) (debugOnAssertFailure s) (oopsie_report s) (trace s).

Definition set_errors (es : list value) (s : state) : state :=
  mkState (store s) es (errorFactories s) (translators s) (reportHandlers s)
          (alertOnAssertFailure s) (debugOnAssertFailure s) (oopsie_report s) (trace s).

Definition set_errorFactories (fs : list (string * options)) (s : state) : state :=
  mkState (store s) (errors s) fs (translators s) (reportHandlers s)
          (alertOnAssertFailure s) (debugOnAssertFailure s) (oopsie_report s) (trace s).

Definition set_translators (ts : list (string * translator)) (s : state) : state :=
  mkState (store s) (errors s) (errorFactories s) ts (reportHandlers s)
          (alertOnAssertFailure s) (debugOnAssertFailure s) (oopsie_report s) (trace s).

Definition set_reportHandlers (hs : list (string * handler)) (s : state) : state :=
  mkState (store s) (errors s) (errorFactories s) (translators s) hs
          (alertOnAssertFailure s) (debugOnAssertFailure s) (oopsie_report s) (trace s).

Definition set_oopsie_report (r : report_slot) (s : state) : state :=
  mkState (store s) (errors s) (errorFactories s) (translators s) (reportHandlers s)
          (alertOnAssertFailure s) (debugOnAssertFailure s) r (trace s).

Definition set_trace (t : list event) (s : state) : state :=
  mkState (store s) (errors s) (errorFactories s) (translators s) (reportHandlers s)
          (alertOnAssertFailure s) (debugOnAssertFailure s) (oopsie_report s) t.

(** Before the library runs: nothing allocated, every table empty. *)
Definition empty_state : state :=
  mkState [] [] [] [] [] (VBool false) (VBool false) (ReportNamespace None) [].

(* ------------------------------------------------------------------ *)
(** *** The monad of library code: state, and a value or a throw *)

Definition M (A : Type) : Type := state -> outcome A * state.

Definition ret {A : Type} (a : A) : M A := fun s => (Ret a, s).

Definition throw {A : Type} (e : thrown) : M A := fun s => (Throw e, s).

Definition bind {A B : Type} (m : M A) (k : A -> M B) : M B :=
  fun s =>
    match m s with
    | (Ret a, s') => k a s'
    | (Throw e, s') => (Throw e, s')
    end.

(** [try { body } catch (e) { handler e }]: what the body did to the state
    before it threw stays done. *)
Definition try_catch {A : Type} (body : M A) (handler : thrown -> M A) : M A :=
  fun s =>
    match body s with
    | (Ret a, s') => (Ret a, s')
    | (Throw e, s') => handler e s'
    end.

Definition gets {A : Type} (f : state -> A) : M A := fun s => (Ret (f s), s).

Definition modify (f : state -> state) : M unit := fun s => (Ret tt, f s).

Definition lift {A : Type} (r : outcome A) : M A := fun s => (r, s).

Declare Scope js_scope.
Delimit Scope js_scope with js.
Notation "x <- m ;; k" := (bind m (fun x => k))
  (at level 61, m at next level, right associativity) : js_scope.
Notation "m ;; k" := (bind m (fun _ => k))
  (at level 61, right associativity) : js_scope.
Open Scope js_scope.

Definition emit (e : event) : M unit :=
  modify (fun s => set_trace (trace s ++ [e])%list s).

(** [new C(...)] and object literals: a fresh object at the end of the heap. *)
Definition alloc (o : obj) : M loc :=
  fun s => (Ret (List.length (store s)), set_store (store s ++ [o])%list s).

Definition put (l : loc) (k : string) (v : value) : M unit :=
  modify (fun s => set_store (heap_put (store s) l k v) s).

(* ------------------------------------------------------------------ *)
(** *** Plain objects used as tables *)

Fixpoint assoc_get {A : Type} (k : string) (kvs : list (string * A)) : option A :=
  match kvs with
  | [] => None
  | (k', a) :: rest => if String.eqb k' k then Some a else assoc_get k rest
  end.

Definition assoc_has {A : Type} (k : string) (kvs : list (string * A)) : bool :=
  match assoc_get k kvs with Some _ => true | None => false end.

(** A property name that is an array index: the canonical decimal text of
    an integer below 2^32 - 1.  A for-in loop visits these names first, in
    ascending order, and the other names after them in the order they were
    added. *)
Definition array_index (k : string) : option N :=
  match NilEmpty.uint_of_string k with
  | Some d =>
      let n := N.of_uint d in
      if String.eqb (NilEmpty.string_of_uint (N.to_uint n)) k && N.ltb n 4294967295
      then Some n else None
  | None => None
  end.

(** The value under a key that is there is replaced where it stands. *)
Fixpoint assoc_replace {A : Type} (k : string) (a : A) (kvs : list (string * A))
  : list (string * A) :=
  match kvs with
  | [] => []
  | (k', a') :: rest =>
      if String.eqb k' k then (k, a) :: rest
      else (k', a') :: assoc_replace k a rest
  end.

(** A new array index goes before the first name that is a larger index or
    no index at all. *)
Fixpoint insert_index {A : Type} (n : N) (k : string) (a : A) (kvs : list (string * A))
  : list (string * A) :=
  match kvs with
  | [] => [(k, a)]
  | (k', a') :: rest =>
      match array_index k' with
      | Some m => if N.ltb n m then (k, a) :: kvs
                  else (k', a') :: insert_index n k a rest
      | None => (k, a) :: kvs
      end
  end.

(** [table[k] = a], the table kept in the order a for-in loop visits it: an
    existing key keeps its place; a new key goes last, unless it is an array
    index. *)
Definition assoc_put {A : Type} (k : string) (a : A) (kvs : list (string * A))
  : list (string * A) :=
  if assoc_has k kvs then assoc_replace k a kvs
  else match array_index k with
       | Some n => insert_index n k a kvs
       | None => (kvs ++ [(k, a)])%list
       end.

Fixpoint chars_from (i : nat) (s : string) : options :=
  match s with
  | EmptyString => []
  | String c s' => (dec i, VStr (String c EmptyString)) :: chars_from (S i) s'
  end.

(** The properties [$.extend] copies out of [o || {}]. *)
Definition extend_source (h : heap) (o : value) : options :=
  if truthy o then
    match o with
    | VObj l => map (fun p => (p_key p, p_val p)) (enumerable (props_of h l))
    | VStr s => chars_from 0 s
    | _ => []
    end
  else [].

(** [$.extend(target, source)]: it writes into [target] and returns it;
    undefined values are not copied. *)
Definition extend (target source : options) : options :=
  fold_left (fun t kv => if strict_eqb (snd kv) VUndefined then t
                         else assoc_put (fst kv) (snd kv) t)
            source target.

Section Library.

Variable env : Host.

(* ================================================================== *)
(** ** Error lookup *)

Definition VERSION : string := "0.1".

Definition canStackTrace : bool :=
  match printStackTrace env with Some _ => true | None => false end.

(** [window.printStackTrace().join('\n')] *)
Definition getStackTrace : M string :=
  fun s =>
    match printStackTrace env with
    | Some capture => (Ret (join nl (capture (List.length (errors s)))), s)
    | None => (Throw (ThrowNative "TypeError" "window.printStackTrace is not a function"), s)
    end.

(** registerError: the token goes in front of the message and the error is
    stored at the end of [errors]. *)
Definition registerError (err : loc) : M nat :=
  pos <- gets (fun s => List.length (errors s)) ;;
  message <- gets (fun s => to_string env (store s) (get_prop (store s) err "message")) ;;
  put err "message" (VStr (oopsieID pos ++ message)) ;;
  modify (fun s => set_errors (errors s ++ [VObj err])%list s) ;;
  ret pos.

(** [errors[pos]]: reading past the end of an array gives undefined. *)
Definition array_get (xs : list value) (pos : nat) : value :=
  nth pos xs VUndefined.

Definition retrieveError (errs : list value) (msg : string) : value :=
  match errorIdRegExp_exec msg with
  | Some m =>
      let pos := parseInt (m_1 m) in
      if Nat.leb (List.length errs) pos then array_get errs pos else VNull
  | None => VNull
  end.

Definition filterOutOopsieId (msg : string) : string :=
  match errorIdRegExp_exec msg with
  | Some m => String_replace (m_0 m) EmptyString msg
  | None => msg
  end.

(* ================================================================== *)
(** ** Exception creation *)

(** [new Error(msg)]: an own, non-enumerable message unless [msg] is
    undefined. *)
Definition new_Error (h : heap) (msg : value) : obj :=
  mkObj CError
        (if strict_eqb msg VUndefined then []
         else [mkProp "message" (VStr (to_string env h msg)) false]).

(** The message a new error starts with: Error.prototype.message when
    [msg] is undefined. *)
Definition raw_message (h : heap) (msg : value) : string :=
  if strict_eqb msg VUndefined then EmptyString else to_string env h msg.

(** The function errorFactory builds for [type].  Its closure variable
    factoryOptions is the entry of [type] in [errorFactories]; [$.extend]
    is given that object as its target.  The function has no return
    statement. *)
Definition factory (type : string) (msg opts : value) : M value :=
  factoryOptions <- gets (fun s => match assoc_get type (errorFactories s) with
                                   | Some o => o
                                   | None => []
                                   end) ;;
  source <- gets (fun s => extend_source (store s) opts) ;;
  let _opts := extend factoryOptions source in
  modify (fun s => set_errorFactories (assoc_put type _opts (errorFactories s)) s) ;;
  h <- gets store ;;
  err <- alloc (new_Error h msg) ;;
  put err "type" (VStr type) ;;
  put err "oopsie" (VStr VERSION) ;;
  (if canStackTrace
   then (st <- getStackTrace ;; put err "stackTrace" (VStr st))
   else ret tt) ;;
  (if truthy (match assoc_get "reportImmediately" _opts with
              | Some v => v
              | None => VUndefined
              end)
   then ret tt  (* TODO: report *)
   else ret tt) ;;
  registerError err ;;
  ret VUndefined.

(** What [errorFactories[type]] finds: the factory stored under the name,
    else the member of that name the table inherits from Object.prototype,
    else nothing. *)
Inductive found_factory : Type :=
| OwnFactory
| Inherited (member : builtin)
| NoFactory.

Definition lookup_factory (type : string) (fs : list (string * options)) : found_factory :=
  if assoc_has type fs then OwnFactory
  else match inherited env type with
       | Some member => Inherited member
       | None => NoFactory
       end.

(** Calling what the lookup found when it is an inherited member: the
    objects the call made join the heap. *)
Definition call_builtin (member : builtin) (msg opts : value) : M value :=
  fun s =>
    let (r, made) := member (store s) msg opts in
    (r, set_store (store s ++ made)%list s).

(** makeError.  An inherited member is truthy, so it is called in place of
    a factory; the fallback to oopsieError is taken when the name finds
    nothing at all. *)
Definition makeError (type : string) (msg opts : value) : M value :=
  factory_found <- gets (fun s => lookup_factory type (errorFactories s)) ;;
  match factory_found with
  | OwnFactory => factory type msg opts
  | Inherited member => call_builtin member msg opts
  | NoFactory =>
      h <- gets store ;;
      let msg' := VStr ("[oopsie.makeError] unknown error type" ++ nl ++
                        "type = " ++ dquote ++ type ++ dquote ++ nl ++
                        to_string env h msg) in
      fallback <- gets (fun s => lookup_factory "oopsieError" (errorFactories s)) ;;
      match fallback with
      | OwnFactory => factory "oopsieError" msg' opts
      | Inherited member => call_builtin member msg' opts
      | NoFactory =>
          throw (ThrowNative "TypeError" "errorFactories.oopsieError is not a function")
      end
  end.

(* ================================================================== *)
(** ** Asserting *)

Definition stringify_now (o : value) : M value :=
  fun s => (stringify env (translators s) (store s) o, s).

Fixpoint stringify_each (msgArgs : list value) : M (list value) :=
  match msgArgs with
  | [] => ret []
  | a :: rest =>
      t <- stringify_now a ;;
      ts <- stringify_each rest ;;
      ret (t :: ts)
  end.

Definition assert (bool : bool) (msgArgs : list value) : M unit :=
  if bool then ret tt
  else
    texts <- stringify_each msgArgs ;;
    h <- gets store ;;
    let msg := array_join env h nl texts in
    alerting <- gets alertOnAssertFailure ;;
    (if truthy alerting then emit (EvAlert msg) else ret tt) ;;
    debugging <- gets debugOnAssertFailure ;;
    (if truthy debugging then emit EvDebugger else ret tt) ;;
    e <- makeError "assertionError" (VStr msg) VUndefined ;;
    throw (ThrowValue e).

(** errorFactory returns the factory; here the factory of a type is
    [factory type]. *)
Definition errorFactory (type : string) (opts : value) : M string :=
  taken <- gets (fun s => assoc_has type (errorFactories s)) ;;
  assert (negb taken) [VStr "error factory already exists"; VStr type; opts] ;;
  source <- gets (fun s => extend_source (store s) opts) ;;
  let factoryOptions := extend [("reportImmediately", VBool false)] source in
  modify (fun s => set_errorFactories (assoc_put type factoryOptions (errorFactories s)) s) ;;
  ret type.

(** addTranslator: the two functions are functions by their type here, so
    the assertion is left with the name.  (For the name __proto__ the
    assignment would set the prototype of the table instead of storing a
    property; that name is outside the model.) *)
Definition addTranslator (name : string) (evaluator translate : heap -> value -> outcome value)
  : M unit :=
  assert (truthy (VStr name))
         [VStr "[oopsie.addTranslator] requires a name, an evaluator function and a translator function"] ;;
  modify (fun s => set_translators
                     (assoc_put name (mkTranslator evaluator translate) (translators s)) s).

(* ================================================================== *)
(** ** Audit wrappers *)

(** A function value of the application: called with [this] and its
    arguments, it returns or throws and may change the state. *)
Definition jsfun : Type := value -> list value -> M value.

Fixpoint indexed (i : nat) (vs : list value) : list prop :=
  match vs with
  | [] => []
  | v :: rest => mkProp (dec i) v true :: indexed (S i) rest
  end.

(** The [arguments] object of a call. *)
Definition arguments_object (args : list value) : obj :=
  mkObj CObject (indexed 0 args ++ [mkProp "length" (VNum (Fin (Z.of_nat (List.length args)))) false])%list.

(** Reading an identifier no enclosing scope declares (strict mode). *)
Definition undeclared (name : string) : M value :=
  throw (ThrowNative "ReferenceError" (name ++ " is not defined")).

(** Reading the identifier message: no scope of the file declares it, so
    it is looked up on the global object. *)
Definition read_message : M value :=
  match global_message env with
  | Some v => ret v
  | None => undeclared "message"
  end.

(** [e.message = v] for a caught value (strict mode).  Errors of the engine
    are not heap objects here, so a write to one is not recorded. *)
Definition put_message (e : thrown) (v : value) : M unit :=
  match e with
  | ThrowValue (VObj l) => put l "message" v
  | ThrowValue VUndefined =>
      throw (ThrowNative "TypeError" "Cannot set property 'message' of undefined")
  | ThrowValue VNull =>
      throw (ThrowNative "TypeError" "Cannot set property 'message' of null")
  | ThrowValue _ =>
      throw (ThrowNative "TypeError" "Cannot create property 'message' on a primitive")
  | ThrowNative _ _ => ret tt
  end.

(** [(v).toString()] *)
Definition call_toString (h : heap) (v : value) : outcome string :=
  match v with
  | VUndefined =>
      Throw (ThrowNative "TypeError" "Cannot read property 'toString' of undefined")
  | VNull =>
      Throw (ThrowNative "TypeError" "Cannot read property 'toString' of null")
  | _ => Ret (to_string env h v)
  end.

(** The steps of the inner try block before its throw statement: normalize
    the caught value, build the longer message, assign to the message of the
    error.  The right-hand side of the assignment is the identifier
    message, not msg. *)
Definition augment_steps (name : string) (context : value) (arguments : loc) (err : thrown)
  : M thrown :=
  typ <- gets (fun s => typeof_thrown (store s) err) ;;
  newError <- (if negb (jstype_eqb typ TObject)
               then (e <- makeError "oopsieError" VUndefined VUndefined ;;
                     ret (ThrowValue e))
               else ret err) ;;
  h0 <- gets store ;;
  message0 <- lift (thrown_message h0 newError) ;;
  text <- stringify_now (VObj arguments) ;;
  h <- gets store ;;
  shown <- lift (call_toString h context) ;;
  let msg := array_join env h nl
               [ message0;
                 VStr ("[" ++ name ++ "]");
                 VStr "Arguments:";
                 text;
                 VStr "toString:";
                 VStr shown ] in
  message <- read_message ;;
  put_message newError message ;;
  ret newError.

(** The inner try block of the wrapper: the steps, then [throw newError]. *)
Definition augment (name : string) (context : value) (arguments : loc) (err : thrown)
  : M value :=
  newError <- augment_steps name context arguments err ;;
  throw newError.

(** The function audit returns, for [context] already defaulted. *)
Definition audited (name : string) (fn : jsfun) (context : value) : list value -> M value :=
  fun args =>
    arguments <- alloc (arguments_object args) ;;
    try_catch
      (fn context args)
      (fun err =>
         try_catch
           (augment name context arguments err)
           (fun err2 => throw err)).

Definition audit (name : string) (fn : jsfun) (context : value) : M (list value -> M value) :=
  context' <- (if truthy context then ret context
               else (l <- alloc (mkObj CObject []) ;; ret (VObj l))) ;;
  ret (audited name fn context').

(* ================================================================== *)
(** ** Error reporting *)

Definition defaultHandler : handler :=
  mkHandler (Callable [resolve []]) (Callable noop).

Definition extend_field {A : Type} (target source : field A) : field A :=
  match source with
  | Missing => target
  | _ => source
  end.

(** [$.extend({}, defaultHandler, o || {})] *)
Definition extend_handler (o : option handler) : handler :=
  match o with
  | Some h => mkHandler (extend_field (before defaultHandler) (before h))
                        (extend_field (after defaultHandler) (after h))
  | None => defaultHandler
  end.

Definition addHandler (name : string) (o : option handler) : M unit :=
  modify (fun s => set_reportHandlers
                     (assoc_put name (extend_handler o) (reportHandlers s)) s).

(** [oopsie.report.apply(oopsie, args)]: the namespace object has no
    property named apply. *)
Definition oopsie_report_apply (args : list value) : M unit :=
  slot <- gets oopsie_report ;;
  match slot with
  | ReportNamespace _ =>
      throw (ThrowNative "TypeError" "oopsie.report.apply is not a function")
  | ReportFunction id => emit (EvReporter id args)
  end.

Definition toArray (arguments : list value) : list value := arguments.

(** The callback reportError registers with [defer.done]. *)
Definition on_resolved (err : value) (h : handler) (arguments : list value) : M unit :=
  let extraArgs := toArray arguments in
  oopsie_report_apply ([err] ++ extraArgs)%list ;;
  match after h with
  | Callable noop => ret tt
  | Callable (after_hook id) => emit (EvAfter id)
  | _ => ret tt
  end.

(** A before hook at work on a gate that has one done callback.  The first
    resolve or reject settles the gate; later calls do nothing.  A callback
    that throws does so inside the hook's call of resolve, and the hook is
    taken not to catch it. *)
Fixpoint run_gate (calls : list gate_call) (g : gate_state)
         (done : list value -> M unit) : M gate_state :=
  match calls with
  | [] => ret g
  | resolve args :: rest =>
      match g with
      | Pending => done args ;; run_gate rest Resolved done
      | _ => run_gate rest g done
      end
  | reject _ :: rest =>
      match g with
      | Pending => run_gate rest Rejected done
      | _ => run_gate rest g done
      end
  end.

(** [reportHandlers[err.type]], undefined when the lookup throws. *)
Definition lookup_handler (s : state) (err : value) : option handler :=
  match get (store s) err "type" with
  | Ret t => assoc_get (to_string env (store s) t) (reportHandlers s)
  | Throw _ => None
  end.

(** reportError, returning the state the gate is left in. *)
Definition reportError_gate (err : value) : M gate_state :=
  found <- gets (fun s => lookup_handler s err) ;;
  let h := extend_handler found in
  match before h with
  | Callable calls => run_gate calls Pending (on_resolved err h)
  | _ => run_gate [resolve []] Pending (on_resolved err h)
  end.

Definition reportError (err : value) : M unit :=
  reportError_gate err ;; ret tt.

(* ================================================================== *)
(** ** Initialization *)

Definition register_default_translators : M unit :=
  addTranslator "undefined" (t_evaluator translator_undefined) (t_translator translator_undefined) ;;
  addTranslator "function" (t_evaluator (translator_function env)) (t_translator (translator_function env)) ;;
  addTranslator "RegExp" (t_evaluator (translator_RegExp env)) (t_translator (translator_RegExp env)) ;;
  addTranslator "NaN" (t_evaluator translator_NaN) (t_translator translator_NaN) ;;
  addTranslator "infinite" (t_evaluator (translator_infinite env)) (t_translator (translator_infinite env)) ;;
  addTranslator "jQuery" (t_evaluator (translator_jQuery env)) (t_translator (translator_jQuery env)).

(** The statements the file runs while it loads, in order. *)
Definition load : M unit :=
  register_default_translators ;;
  errorFactory "assertionError" VUndefined ;;
  errorFactory "javascriptError" VUndefined ;;
  errorFactory "oopsieError" VUndefined ;;
  modify (set_oopsie_report (ReportNamespace None)).

Definition loaded : state := snd (load empty_state).

End Library.

(** A record of type oopsieError, a handler for that type whose before hook
    rejects and then resolves, and oopsie.report rebound to a function. *)
Definition cancelling_state : state :=
  snd ((addHandler "oopsieError"
          (Some (mkHandler (Callable [reject []; resolve [VStr "late"]])
                           (Callable (after_hook 1)))) ;;
        factory browser "oopsieError" (VStr "boom") VUndefined)
       (set_oopsie_report (ReportFunction 7) (loaded browser))).

(** The loaded library after
    [opts = { reportImmediately: true }; errorFactory('networkError')]. *)
Definition networkError_made : state :=
  snd ((alloc (mkObj CObject [mkProp "reportImmediately" (VBool true) true]) ;;
        errorFactory browser "networkError" VUndefined)
       (loaded browser)).

(* ================================================================== *)
(** ** The rest of the library *)

(** *** auditMethods: the label of a wrapped method *)

Definition is_dot (c : ascii) : bool := Nat.eqb (nat_of_ascii c) 46.

Fixpoint all_dots (s : string) : bool :=
  match s with
  | EmptyString => true
  | String c s' => is_dot c && all_dots s'
  end.

(** [prefix.replace(/(\.)+$/, '')]: the leftmost place from which only dots
    follow is where the match starts; it is cut off there. *)
Fixpoint strip_trailing_dots (s : string) : string :=
  match s with
  | EmptyString => EmptyString
  | String c s' =>
      if all_dots s then EmptyString else String c (strip_trailing_dots s')
  end.

(** The prefix auditMethods puts before each name: untouched when empty,
    else without its trailing dots and with one dot added. *)
Definition auditMethods_prefix (prefix : string) : string :=
  if truthy (VStr prefix) then strip_trailing_dots prefix ++ "." else prefix.

(** The name auditMethods hands to audit for the method [name]. *)
Definition auditMethods_label (prefix name : string) : string :=
  auditMethods_prefix prefix ++ name.

Fixpoint dots (n : nat) : string :=
  match n with
  | 0 => EmptyString
  | S n' => String "." (dots n')
  end.

Fixpoint ends_with_dot (s : string) : bool :=
  match s with
  | EmptyString => false
  | String c EmptyString => is_dot c
  | String _ s' => ends_with_dot s'
  end.

(** No underscore in a text: no token can start in it. *)
Fixpoint no_underscore (s : string) : bool :=
  match s with
  | EmptyString => true
  | String c s' => negb (Nat.eqb (nat_of_ascii c) 95) && no_underscore s'
  end.

(** *** Translators already in the table *)

(** The loop over [ts] ends inside [ts] for this value: some evaluator
    answers truthy, or raises, before the table is exhausted. *)
Fixpoint claimed (ts : list (string * translator)) (h : heap) (v : value) : bool :=
  match ts with
  | [] => false
  | (_, t) :: rest =>
      match t_evaluator t h v with
      | Throw _ => true
      | Ret hit => truthy hit || claimed rest h v
      end
  end.

(** *** The registry as registerError keeps it *)

(** Every entry of [errors] is an object of the heap whose message starts
    with the token of the entry's own position. *)
Definition registry_ok (s : state) : Prop :=
  forall pos, pos < List.length (errors s) ->
    exists l raw,
      nth_error (errors s) pos = Some (VObj l)
      /\ l < List.length (store s)
      /\ get_prop (store s) l "message" = VStr (oopsieID pos ++ raw).

Section MoreLibrary.

Variable env : Host.

(** fail: assert with false put before the arguments. *)
Definition fail (msgArgs : list value) : M unit :=
  assert env false msgArgs.

(** *** The uncaught-error handler *)

(** [$.type(v)].  Which name jQuery gives an Error object depends on its
    version (error from 1.9 on, object before): [error_name] is that name. *)
Definition jQuery_type (error_name : string) (h : heap) (v : value) : string :=
  match v with
  | VUndefined => "undefined"
  | VNull => "null"
  | VBool _ => "boolean"
  | VNum _ => "number"
  | VStr _ => "string"
  | VObj l =>
      match class_of h l with
      | CObject => "object"
      | CArray => "array"
      | CFunction => "function"
      | CRegExp _ => "regexp"
      | CError => error_name
      end
  end.

(** [$.type(err) === 'object' && err.oopsie] *)
Definition isOopsieError (error_name : string) (h : heap) (err : value) : outcome value :=
  if String.eqb (jQuery_type error_name h err) "object"
  then get h err "oopsie"
  else Ret (VBool false).

(** window.onerror *)
Definition onerror (error_name : string) (msg url : string) (line : value) : M unit :=
  err <- gets (fun s => retrieveError (errors s) msg) ;;
  h <- gets store ;;
  known <- lift (isOopsieError error_name h err) ;;
  if negb (truthy known)
  then (h' <- gets store ;;
        err' <- makeError env "javascriptError"
                          (VStr (array_join env h' nl [VStr msg; VStr url; line]))
                          VUndefined ;;
        reportError env err')
  else reportError env err.

End MoreLibrary.

(** A record of type oopsieError, a handler for that type whose before hook
    resolves with one extra argument and then calls the gate twice more, and
    oopsie.report rebound to a function. *)
Definition reporting_state : state :=
  snd ((addHandler "oopsieError"
          (Some (mkHandler (Callable [resolve [VStr "extra"]; resolve []; reject []])
                           (Callable (after_hook 1)))) ;;
        factory browser "oopsieError" (VStr "boom") VUndefined)
       (set_oopsie_report (ReportFunction 7) (loaded browser))).

(** Unfolding the state record and its setters, nothing else. *)
Ltac state_simpl :=
  cbn [fst snd store errors errorFactories translators reportHandlers
       alertOnAssertFailure debugOnAssertFailure oopsie_report trace
       set_store set_errors set_errorFactories set_translators
       set_reportHandlers set_oopsie_report set_trace
       o_class o_props].

Ltac state_simpl_in H :=
  cbn [fst snd store errors errorFactories translators reportHandlers
       alertOnAssertFailure debugOnAssertFailure oopsie_report trace
       set_store set_errors set_errorFactories set_translators
       set_reportHandlers set_oopsie_report set_trace
       o_class o_props] in H.

(* ================================================================== *)
(** * Properties *)

(** ** Strings and the identifier token *)

Lemma string_app_assoc (a b c : string) : (a ++ b) ++ c = a ++ (b ++ c).
Proof.
  induction a as [|x a IH]; simpl; [reflexivity | now rewrite IH].
Qed.

Lemma string_length_app (a b : string) :
  String.length (a ++ b) = String.length a + String.length b.
Proof.
  induction a as [|x a IH]; simpl; [reflexivity | now rewrite IH].
Qed.

Lemma prefix_rest_app (p s : string) : prefix_rest p (p ++ s) = Some s.
Proof.
  induction p as [|a p IH]; simpl; [reflexivity|].
  now rewrite Ascii.eqb_refl.
Qed.

Lemma prefix_rest_sound (p s r : string) :
  prefix_rest p s = Some r -> s = p ++ r.
Proof.
  revert s; induction p as [|a p IH]; intros s H; simpl in *.
  - now inversion H.
  - destruct s as [|b s]; [discriminate|].
    destruct (Ascii.eqb_spec a b) as [->|]; [|discriminate].
    now rewrite (IH _ H).
Qed.

Lemma span_digits_sound (s d r : string) :
  span_digits s = (d, r) -> s = d ++ r.
Proof.
  revert d r; induction s as [|c s IH]; intros d r H; simpl in H.
  - now inversion H.
  - destruct (is_digit c).
    + destruct (span_digits s) as [d' r'] eqn:E.
      inversion H; subst. simpl. now rewrite (IH _ _ eq_refl).
    + now inversion H.
Qed.

Lemma span_digits_app (d r : string) :
  all_digits d = true ->
  match r with EmptyString => True | String c _ => is_digit c = false end ->
  span_digits (d ++ r) = (d, r).
Proof.
  induction d as [|c d IH]; simpl; intros Hd Hr.
  - destruct r as [|c r]; [reflexivity|]. simpl. now rewrite Hr.
  - apply andb_true_iff in Hd as [Hc Hd].
    now rewrite Hc, (IH Hd Hr).
Qed.

Lemma string_of_uint_digits (d : Decimal.uint) :
  all_digits (NilEmpty.string_of_uint d) = true.
Proof.
  induction d; simpl; auto.
Qed.

Lemma parseInt_dec (n : nat) : parseInt (dec n) = n.
Proof.
  unfold parseInt, dec.
  rewrite NilEmpty.usu. apply DecimalNat.Unsigned.of_to.
Qed.

Lemma dec_not_empty (n : nat) : dec n <> EmptyString.
Proof.
  intro H.
  assert (E : parseInt (dec n) = parseInt EmptyString) by now rewrite H.
  rewrite parseInt_dec in E. cbn in E. subst n.
  discriminate H.
Qed.

(** The token registerError writes is found at the head of the message, with
    the position as its digits. *)
Lemma match_here_oopsieID (pos : nat) (rest : string) :
  match_here (oopsieID pos ++ rest) = Some (oopsieID pos, dec pos).
Proof.
  unfold match_here, oopsieID.
  rewrite !string_app_assoc, prefix_rest_app.
  rewrite (span_digits_app (dec pos) (marker_suffix ++ rest)).
  - destruct (dec pos) eqn:E; [now apply dec_not_empty in E|].
    now rewrite prefix_rest_app.
  - apply string_of_uint_digits.
  - reflexivity.
Qed.

Lemma exec_from_here (i : nat) (s whole d : string) :
  match_here s = Some (whole, d) -> exec_from i s = Some (mkMatch i whole d).
Proof.
  intros H. destruct s; cbn [exec_from]; now rewrite H.
Qed.

Lemma exec_oopsieID (pos : nat) (rest : string) :
  errorIdRegExp_exec (oopsieID pos ++ rest) = Some (mkMatch 0 (oopsieID pos) (dec pos)).
Proof.
  apply exec_from_here, match_here_oopsieID.
Qed.

Lemma String_replace_here (pat rep rest : string) :
  String_replace pat rep (pat ++ rest) = rep ++ rest.
Proof.
  destruct (pat ++ rest) eqn:E; cbn [String_replace];
    now rewrite <- E, prefix_rest_app.
Qed.

Lemma match_here_sound (s whole d : string) :
  match_here s = Some (whole, d) ->
  whole = marker_prefix ++ d ++ marker_suffix /\ exists post, s = whole ++ post.
Proof.
  unfold match_here. intros H.
  destruct (prefix_rest marker_prefix s) as [r|] eqn:Hp; [|discriminate].
  destruct (span_digits r) as [d' r'] eqn:Hs.
  destruct d' as [|c d']; [discriminate|].
  destruct (prefix_rest marker_suffix r') as [post|] eqn:Hq; [|discriminate].
  injection H as Hw Hd. subst whole d. split; [reflexivity|].
  exists post.
  apply prefix_rest_sound in Hp, Hq. apply span_digits_sound in Hs.
  subst s r r'. cbn. now rewrite string_app_assoc.
Qed.

(** A match is a substring of the text it was found in. *)
Lemma exec_from_sound (s : string) : forall i m,
  exec_from i s = Some m ->
  exists pre post, s = pre ++ m_0 m ++ post /\
                   m_0 m = marker_prefix ++ m_1 m ++ marker_suffix.
Proof.
  induction s as [|c s IH]; intros i m H; cbn [exec_from] in H.
  - destruct (match_here EmptyString) as [[w d]|] eqn:E; [|discriminate].
    inversion H; subst; simpl.
    destruct (match_here_sound _ _ _ E) as [Hw [post Hs]].
    exists EmptyString, post. now split.
  - destruct (match_here (String c s)) as [[w d]|] eqn:E.
    + inversion H; subst; simpl.
      destruct (match_here_sound _ _ _ E) as [Hw [post Hs]].
      exists EmptyString, post. now split.
    + destruct (IH _ _ H) as [pre [post [Hs Hm]]].
      exists (String c pre), post. simpl. now rewrite <- Hs.
Qed.

(** Replacing an occurrence by nothing shortens the text by the pattern. *)
Lemma String_replace_length (pat : string) : forall pre post,
  String.length (String_replace pat EmptyString (pre ++ pat ++ post)) + String.length pat
  = String.length (pre ++ pat ++ post).
Proof.
  induction pre as [|c pre IH]; intros post.
  - simpl (EmptyString ++ _).
    rewrite String_replace_here. simpl. rewrite string_length_app. lia.
  - simpl ((String c pre) ++ _).
    cbn [String_replace].
    destruct (prefix_rest pat (String c (pre ++ pat ++ post))) as [r|] eqn:E.
    + apply prefix_rest_sound in E. simpl (EmptyString ++ r).
      rewrite E. rewrite string_length_app. lia.
    + simpl. rewrite <- (IH post). lia.
Qed.

Lemma filterOutOopsieId_no_token (msg : string) :
  errorIdRegExp_exec msg = None -> filterOutOopsieId msg = msg.
Proof.
  unfold filterOutOopsieId. now intros ->.
Qed.

Lemma filterOutOopsieId_shortens (msg : string) (m : regexp_match) :
  errorIdRegExp_exec msg = Some m ->
  String.length (filterOutOopsieId msg) < String.length msg.
Proof.
  intros H. unfold filterOutOopsieId. rewrite H.
  destruct (exec_from_sound _ _ _ H) as [pre [post [Hs Hm]]].
  assert (P : 0 < String.length (m_0 m)) by (rewrite Hm; simpl; lia).
  pose proof (String_replace_length (m_0 m) pre post) as L.
  rewrite <- Hs in L. lia.
Qed.

(** Stripping a message that registerError built gives back the message. *)
Lemma filterOutOopsieId_oopsieID (pos : nat) (rest : string) :
  filterOutOopsieId (oopsieID pos ++ rest) = rest.
Proof.
  unfold filterOutOopsieId. rewrite exec_oopsieID. simpl m_0.
  apply String_replace_here.
Qed.

(** ** Error lookup *)

(** The comparison in retrieveError holds exactly for the positions that
    are not stored: a stored position is answered with null. *)
Lemma retrieveError_stored_position (errs : list value) (pos : nat) (rest : string) :
  pos < List.length errs ->
  retrieveError errs (oopsieID pos ++ rest) = VNull.
Proof.
  intros H. unfold retrieveError.
  rewrite exec_oopsieID. simpl m_1. rewrite parseInt_dec.
  destruct (Nat.leb_spec (List.length errs) pos); [lia | reflexivity].
Qed.

Lemma retrieveError_past_the_end (errs : list value) (pos : nat) (rest : string) :
  List.length errs <= pos ->
  retrieveError errs (oopsieID pos ++ rest) = VUndefined.
Proof.
  intros H. unfold retrieveError, array_get.
  rewrite exec_oopsieID. simpl m_1. rewrite parseInt_dec.
  destruct (Nat.leb_spec (List.length errs) pos); [|lia].
  now apply nth_overflow.
Qed.

(** Whatever the text and the registry, retrieveError answers null or
    undefined, never a stored error. *)
Lemma retrieveError_finds_nothing (errs : list value) (msg : string) :
  retrieveError errs msg = VNull \/ retrieveError errs msg = VUndefined.
Proof.
  unfold retrieveError, array_get.
  destruct (errorIdRegExp_exec msg) as [m|]; [|now left].
  destruct (Nat.leb_spec (List.length errs) (parseInt (m_1 m))); [|now left].
  right. now apply nth_overflow.
Qed.

(** A worked run.  A factory is created for
    networkError and called with the message timeout; the record is stored
    at position 1 of the heap and position 0 of the registry, its message
    is the token for 0 followed by timeout, and retrieveError on that very
    message answers null instead of the record. *)
Example retrieveError_misses_the_record :
  let s := snd ((o <- alloc (mkObj CObject []) ;;
                 errorFactory browser "networkError" (VObj o) ;;
                 factory browser "networkError" (VStr "timeout") VUndefined)
                (loaded browser)) in
  errors s = [VObj 1]
  /\ get_prop (store s) 1 "message" = VStr "__oopsieID_0__timeout"
  /\ retrieveError (errors s) "__oopsieID_0__timeout" = VNull
  /\ array_get (errors s) 0 = VObj 1.
Proof.
  vm_compute. repeat split.
Qed.

(** C10 (counterexample).  A text holding two tokens loses one of them at
    each application, so the second application still changes it. *)
Lemma filterOutOopsieId_twice_differs :
  filterOutOopsieId "__oopsieID_1____oopsieID_2__" = "__oopsieID_2__"
  /\ filterOutOopsieId (filterOutOopsieId "__oopsieID_1____oopsieID_2__") = EmptyString
  /\ filterOutOopsieId (filterOutOopsieId "__oopsieID_1____oopsieID_2__")
     <> filterOutOopsieId "__oopsieID_1____oopsieID_2__".
Proof.
  vm_compute. repeat split. discriminate.
Qed.

Lemma match_here_needs_underscore (c : ascii) (s : string) :
  Nat.eqb (nat_of_ascii c) 95 = false -> match_here (String c s) = None.
Proof.
  intros H. unfold match_here, marker_prefix. cbn [prefix_rest].
  destruct (Ascii.eqb_spec "_"%char c) as [<-|]; [discriminate H | reflexivity].
Qed.

Lemma exec_from_skips (pre : string) : forall i s,
  no_underscore pre = true ->
  exec_from i (pre ++ s) = exec_from (i + String.length pre) s.
Proof.
  induction pre as [|c pre IH]; intros i s H; cbn [no_underscore] in H.
  - simpl. now rewrite Nat.add_0_r.
  - apply andb_true_iff in H as [Hc Hp]. apply negb_true_iff in Hc.
    simpl (String c pre ++ s). cbn [exec_from].
    rewrite (match_here_needs_underscore c _ Hc).
    rewrite (IH (S i) s Hp). simpl. f_equal. lia.
Qed.

Lemma span_digits_all_digits (s d r : string) :
  span_digits s = (d, r) -> all_digits d = true.
Proof.
  revert d r; induction s as [|c s IH]; intros d r H; simpl in H.
  - now inversion H.
  - destruct (is_digit c) eqn:D.
    + destruct (span_digits s) as [d' r'] eqn:E.
      inversion H; subst. simpl. now rewrite D, (IH _ _ eq_refl).
    + now inversion H.
Qed.

(** What a match is made of: the prefix, a run of digits that is not empty,
    the suffix. *)
Lemma match_here_digits (s whole d : string) :
  match_here s = Some (whole, d) ->
  whole = marker_prefix ++ d ++ marker_suffix
  /\ all_digits d = true /\ d <> EmptyString.
Proof.
  unfold match_here. intros H.
  destruct (prefix_rest marker_prefix s) as [r|] eqn:Hp; [|discriminate].
  destruct (span_digits r) as [d' r'] eqn:Hs.
  destruct d' as [|c d']; [discriminate|].
  destruct (prefix_rest marker_suffix r') as [post|] eqn:Hq; [|discriminate].
  injection H as Hw Hd. subst whole d.
  split; [reflexivity|]. split; [|discriminate].
  exact (span_digits_all_digits _ _ _ Hs).
Qed.

(** A text that starts with a token matches at its head. *)
Lemma match_here_token (d post : string) :
  all_digits d = true -> d <> EmptyString ->
  match_here ((marker_prefix ++ d ++ marker_suffix) ++ post)
  = Some (marker_prefix ++ d ++ marker_suffix, d).
Proof.
  intros D N. unfold match_here.
  rewrite !string_app_assoc, prefix_rest_app.
  rewrite (span_digits_app d (marker_suffix ++ post) D); [|reflexivity].
  destruct d; [contradiction|].
  now rewrite prefix_rest_app.
Qed.

(** The match exec finds is the leftmost occurrence of a token: no token
    starts before it, and replacing the matched text by nothing removes
    exactly that occurrence. *)
Lemma exec_from_leftmost (s : string) : forall i m,
  exec_from i s = Some m ->
  exists pre post,
    s = pre ++ m_0 m ++ post
    /\ m_index m = i + String.length pre
    /\ (forall a b, pre = a ++ b -> b <> EmptyString ->
                    match_here (b ++ m_0 m ++ post) = None)
    /\ String_replace (m_0 m) EmptyString s = pre ++ post
    /\ m_0 m = marker_prefix ++ m_1 m ++ marker_suffix
    /\ all_digits (m_1 m) = true /\ m_1 m <> EmptyString.
Proof.
  assert (Here : forall t w d i,
             match_here t = Some (w, d) ->
             exists pre post,
               t = pre ++ w ++ post
               /\ i = i + String.length pre
               /\ (forall a b, pre = a ++ b -> b <> EmptyString ->
                               match_here (b ++ w ++ post) = None)
               /\ String_replace w EmptyString t = pre ++ post
               /\ w = marker_prefix ++ d ++ marker_suffix
               /\ all_digits d = true /\ d <> EmptyString).
  { intros t w d i E.
    destruct (match_here_sound _ _ _ E) as [_ [post Hs]].
    destruct (match_here_digits _ _ _ E) as [Hw [D N]].
    exists EmptyString, post. cbn [append String.length].
    split; [exact Hs|]. split; [lia|]. split.
    - intros a b Hab Hb. destruct a; [|discriminate Hab].
      cbn in Hab. now subst b.
    - split; [|now repeat split].
      rewrite Hs. apply String_replace_here. }
  induction s as [|c s IH]; intros i m H; cbn [exec_from] in H.
  - destruct (match_here EmptyString) as [[w d]|] eqn:E; [|discriminate].
    inversion H; subst. cbn [m_0 m_1 m_index]. now apply Here.
  - destruct (match_here (String c s)) as [[w d]|] eqn:E.
    + inversion H; subst. cbn [m_0 m_1 m_index]. now apply Here.
    + destruct (IH _ _ H) as [pre [post [Hs [Hi [Hl [Hr [Hw [D N]]]]]]]].
      exists (String c pre), post. cbn [append String.length].
      split; [now rewrite <- Hs|]. split; [lia|]. split.
      * intros a b Hab Hb. destruct a as [|c' a].
        -- cbn in Hab. subst b. cbn [append]. now rewrite <- Hs.
        -- cbn in Hab. injection Hab as _ Hab. now apply (Hl a b).
      * split; [|now repeat split].
        cbn [String_replace].
        destruct (prefix_rest (m_0 m) (String c s)) as [r|] eqn:P.
        -- apply prefix_rest_sound in P. rewrite Hw in P.
           rewrite P, (match_here_token _ r D N) in E. discriminate E.
        -- now rewrite Hr.
Qed.

Lemma string_app_split (a b x y : string) :
  a ++ x = b ++ y -> String.length a = String.length b -> a = b /\ x = y.
Proof.
  revert b; induction a as [|c a IH]; intros b H L; destruct b as [|c' b];
    try discriminate L.
  - now split.
  - cbn in H. injection H as -> H. cbn in L.
    destruct (IH b H) as [-> ->]; [lia | now split].
Qed.

(** After a text without underscores the token is what is removed, and the
    text before and after it stays. *)
Lemma filterOutOopsieId_after_prefix (pre : string) (pos : nat) (rest : string) :
  no_underscore pre = true ->
  filterOutOopsieId (pre ++ oopsieID pos ++ rest) = pre ++ rest.
Proof.
  intros H. unfold filterOutOopsieId, errorIdRegExp_exec.
  destruct (exec_from 0 (pre ++ oopsieID pos ++ rest)) as [m|] eqn:E.
  - destruct (exec_from_leftmost _ _ _ E) as [pre' [post' [Hs [Hi [_ [Hr _]]]]]].
    rewrite Hr.
    rewrite (exec_from_skips pre 0 _ H) in E.
    rewrite (exec_from_here _ _ _ _ (match_here_oopsieID pos rest)) in E.
    injection E as <-. cbn [m_0 m_index] in Hs, Hi.
    destruct (string_app_split pre pre' _ _ Hs) as [<- T]; [lia|].
    destruct (string_app_split (oopsieID pos) (oopsieID pos) _ _ T) as [_ <-];
      reflexivity.
  - rewrite (exec_from_skips pre 0 _ H) in E.
    rewrite (exec_from_here _ _ _ _ (match_here_oopsieID pos rest)) in E.
    discriminate E.
Qed.

(** C10 (amended).  filterOutOopsieId removes the first token only.  The
    text it returns is the text before the leftmost token followed by the text
    after it, both as they were; no token starts in the text before it.  A
    second application changes nothing exactly when the text stripped once
    holds no token any more.  A text without a token is left as it is, and a
    message registerError built from a text without a token is stripped back
    to that text, once and for all, also when the browser has put a text
    without underscores in front of it. *)
Theorem filterOutOopsieId_idempotent_iff :
  (forall x : string,
      filterOutOopsieId (filterOutOopsieId x) = filterOutOopsieId x
      <-> errorIdRegExp_exec (filterOutOopsieId x) = None)
  /\ (forall x : string,
         errorIdRegExp_exec x = None -> filterOutOopsieId x = x)
  /\ (forall (pos : nat) (raw : string),
         errorIdRegExp_exec raw = None ->
         filterOutOopsieId (oopsieID pos ++ raw) = raw
         /\ filterOutOopsieId (filterOutOopsieId (oopsieID pos ++ raw)) = raw)
  /\ (forall (x : string) (m : regexp_match),
         errorIdRegExp_exec x = Some m ->
         exists pre post,
           x = pre ++ m_0 m ++ post
           /\ String.length pre = m_index m
           /\ (forall a b, pre = a ++ b -> b <> EmptyString ->
                           match_here (b ++ m_0 m ++ post) = None)
           /\ filterOutOopsieId x = pre ++ post)
  /\ (forall (pre : string) (pos : nat) (rest : string),
         no_underscore pre = true ->
         filterOutOopsieId (pre ++ oopsieID pos ++ rest) = pre ++ rest).
Proof.
  split; [|split; [|split; [|split]]].
  - intros x. split.
    + intros H.
      destruct (errorIdRegExp_exec (filterOutOopsieId x)) as [m|] eqn:E; [|reflexivity].
      apply filterOutOopsieId_shortens in E. rewrite H in E. lia.
    + apply filterOutOopsieId_no_token.
  - apply filterOutOopsieId_no_token.
  - intros pos raw H. rewrite filterOutOopsieId_oopsieID.
    split; [reflexivity | now apply filterOutOopsieId_no_token].
  - intros x m E. unfold filterOutOopsieId. rewrite E.
    destruct (exec_from_leftmost _ _ _ E) as [pre [post [Hs [Hi [Hl [Hr _]]]]]].
    exists pre, post. repeat split; [exact Hs | lia | exact Hl | exact Hr].
  - apply filterOutOopsieId_after_prefix.
Qed.

Lemma filterOutOopsieId_idempotent_witness :
  (filterOutOopsieId "__oopsieID_0__timeout" = "timeout"
   /\ filterOutOopsieId (filterOutOopsieId "__oopsieID_0__timeout") = "timeout")
  /\ filterOutOopsieId ("Uncaught Error: " ++ oopsieID 0 ++ "timeout")
     = "Uncaught Error: " ++ "timeout".
Proof.
  destruct filterOutOopsieId_idempotent_iff as [_ [_ [Head [_ Middle]]]].
  split.
  - exact (Head 0 "timeout" eq_refl).
  - exact (Middle "Uncaught Error: " 0 "timeout" eq_refl).
Defined.

(** ** The serializer *)

Section SerializerFacts.

Variable env : Host.

Lemma thrown_message_raises_native (h : heap) (err e : thrown) :
  thrown_message h err = Throw e -> exists n m, e = ThrowNative n m.
Proof.
  destruct err as [n m|v]; simpl; [discriminate|].
  destruct v; simpl; intros H; try discriminate; inversion H; eauto.
Qed.

(** The translators registered at load time leave a value alone only when
    the built-in can print it; otherwise they hand back a string. *)
Lemma apply_default_translators (h : heap) (v r : value) :
  apply_translators (default_translators env) h v = Ret r ->
  (exists s, r = VStr s) \/ (r = v /\ printable h v).
Proof.
  assert (K : forall w : value, printable h w ->
              Ret w = Ret r -> (exists s, r = VStr s) \/ (r = w /\ printable h w)).
  { intros w P H. inversion H; subst. right. now split. }
  assert (T : forall s : string, Ret (VStr s) = Ret r ->
              (exists s, r = VStr s) \/ (r = v /\ printable h v)).
  { intros s H. inversion H; subst. left. now exists s. }
  unfold default_translators. cbn [apply_translators].
  destruct v as [| |b|n|s|l].
  - cbn. apply T.
  - cbn. now apply K.
  - destruct b; cbn; now apply K.
  - destruct n as [z| | |]; cbn; try apply T.
    unfold isJQuery, truthy. destruct (Z.eqb z 0) eqn:E; cbn; rewrite ?E; cbn; now apply K.
  - destruct s as [|c s]; cbn; now apply K.
  - cbn -[get_prop getFunctionName to_string printable].
    unfold isFunction, typeof.
    destruct (class_of h l) eqn:C; cbn -[get_prop getFunctionName to_string printable].
    all: try (destruct (truthy (get_prop h l "jquery"));
              [ destruct (jQueryToString env h (VObj l)); cbn -[printable];
                [apply T | intros X; discriminate X]
              | apply K; unfold printable; rewrite C; discriminate ]).
    + destruct (truthy (getFunctionName h (VObj l))); apply T.
    + apply T.
Qed.

Lemma replacer_default (h : heap) (seen : list value) (v : value) :
  match circularRefSafeTranslate env (default_translators env) h seen v with
  | Raised e => exists n m, e = ThrowNative n m
  | Done r _ => printable h r
  end.
Proof.
  unfold circularRefSafeTranslate.
  assert (T : forall seen',
             match (let (o, s) := (apply_translators (default_translators env) h v, seen') in
                    match o with
                    | Ret r => Done r s
                    | Throw err =>
                        match thrown_message h err with
                        | Ret m => Done (VStr ("[translation error]: " ++ to_string env h m)) s
                        | Throw e => Raised e
                        end
                    end) with
             | Raised e => exists n m, e = ThrowNative n m
             | Done r _ => printable h r
             end).
  { intros seen'.
    destruct (apply_translators (default_translators env) h v) as [r|err] eqn:A.
    - destruct (apply_default_translators _ _ _ A) as [[s ->]|[-> P]]; [exact I | exact P].
    - destruct (thrown_message h err) as [m|e] eqn:E; [exact I|].
      eapply thrown_message_raises_native; eauto. }
  destruct (jstype_eqb (typeof h v) TObject).
  - destruct (inArray v seen); [exact I | apply T].
  - apply T.
Qed.

(** A value already in the seen list is not descended into again: the
    replacer answers with the placeholder that names its position. *)
Lemma replacer_placeholder (ts : list (string * translator)) (h : heap)
      (seen : list value) (v : value) (seenAt : nat) :
  typeof h v = TObject ->
  inArray v seen = Some seenAt ->
  circularRefSafeTranslate env ts h seen v
  = Done (VStr ("JSON.circularRef_" ++ dec seenAt)) seen.
Proof.
  intros T I. unfold circularRefSafeTranslate. now rewrite T, I.
Qed.

(** A translator that raises costs the one value it was asked about. *)
Lemma replacer_contains_failure (ts : list (string * translator)) (h : heap)
      (seen : list value) (v : value) (err : thrown) (m : value) :
  inArray v seen = None ->
  apply_translators ts h v = Throw err ->
  thrown_message h err = Ret m ->
  exists seen',
    circularRefSafeTranslate env ts h seen v
    = Done (VStr ("[translation error]: " ++ to_string env h m)) seen'.
Proof.
  intros I A E. unfold circularRefSafeTranslate. rewrite I, A.
  destruct (jstype_eqb (typeof h v) TObject); rewrite E; eauto.
Qed.

(** Whatever the translators, what the replacer lets escape is an error
    object of the engine. *)
Lemma replacer_raises_native (ts : list (string * translator)) (h : heap)
      (seen : list value) (v : value) (e : thrown) :
  circularRefSafeTranslate env ts h seen v = Raised e ->
  exists n m, e = ThrowNative n m.
Proof.
  unfold circularRefSafeTranslate.
  assert (T : forall seen',
             (let (o, s) := (apply_translators ts h v, seen') in
              match o with
              | Ret r => Done r s
              | Throw err =>
                  match thrown_message h err with
                  | Ret m => Done (VStr ("[translation error]: " ++ to_string env h m)) s
                  | Throw e => Raised e
                  end
              end) = Raised e ->
             exists n m, e = ThrowNative n m).
  { intros seen'. destruct (apply_translators ts h v) as [r|err]; [discriminate|].
    destruct (thrown_message h err) as [m|e'] eqn:E; [discriminate|].
    intros H; inversion H; subst.
    eapply thrown_message_raises_native; eauto. }
  destruct (jstype_eqb (typeof h v) TObject).
  - destruct (inArray v seen); [discriminate | apply T].
  - apply T.
Qed.

Lemma members_ended (P : thrown -> Prop)
      (rec : list value -> string -> value -> option (step jtext))
      (slot : string -> outcome value) (keys : list string) :
  (forall seen k v, ended P (rec seen k v)) ->
  (forall k e, slot k = Throw e -> P e) ->
  forall seen, ended P (members rec slot keys seen).
Proof.
  intros R Sl. induction keys as [|k keys IH]; intros seen; cbn [members]; [exact I|].
  destruct (slot k) as [x|e] eqn:E; [|exact (Sl _ _ E)].
  specialize (R seen k x).
  destruct (rec seen k x) as [[e|r seen1]|]; cbn in R; try contradiction; [exact R|].
  specialize (IH seen1).
  destruct (members rec slot keys seen1) as [[e|ms seen2]|]; cbn in IH;
    try contradiction; [exact IH|].
  destruct r; exact I.
Qed.

Lemma elements_ended (P : thrown -> Prop)
      (rec : list value -> string -> value -> option (step jtext))
      (slot : string -> outcome value) (keys : list string) :
  (forall seen k v, ended P (rec seen k v)) ->
  (forall k e, slot k = Throw e -> P e) ->
  forall seen, ended P (elements rec slot keys seen).
Proof.
  intros R Sl. induction keys as [|k keys IH]; intros seen; cbn [elements]; [exact I|].
  destruct (slot k) as [x|e] eqn:E; [|exact (Sl _ _ E)].
  specialize (R seen k x).
  destruct (rec seen k x) as [[e|r seen1]|]; cbn in R; try contradiction; [exact R|].
  specialize (IH seen1).
  destruct (elements rec slot keys seen1) as [[e|ms seen2]|]; cbn in IH;
    try contradiction; [exact IH | exact I].
Qed.

Lemma filter_length_mono {A : Type} (p q : A -> bool) (xs : list A) :
  (forall y, q y = true -> p y = true) ->
  List.length (filter q xs) <= List.length (filter p xs).
Proof.
  intros Hpq. induction xs as [|y xs IH]; simpl; [lia|].
  destruct (q y) eqn:Q.
  - rewrite (Hpq _ Q). simpl. lia.
  - destruct (p y); simpl; lia.
Qed.

Lemma filter_length_drop {A : Type} (p q : A -> bool) (xs : list A) (x : A) :
  (forall y, q y = true -> p y = true) ->
  In x xs -> p x = true -> q x = false ->
  List.length (filter q xs) < List.length (filter p xs).
Proof.
  intros Hpq Hin Px Qx. induction xs as [|y xs IH]; [contradiction|].
  simpl. destruct Hin as [->|Hin].
  - rewrite Px, Qx. simpl.
    pose proof (filter_length_mono p q xs Hpq). lia.
  - specialize (IH Hin). destruct (q y) eqn:Q.
    + rewrite (Hpq _ Q). simpl. lia.
    + destruct (p y); simpl; lia.
Qed.

(** Pushing an object of the heap leaves fewer objects to descend into. *)
Lemma unvisited_push (h : heap) (stack : list loc) (l : loc) :
  l < List.length h ->
  existsb (Nat.eqb l) stack = false ->
  unvisited h (l :: stack) < unvisited h stack.
Proof.
  intros V F. unfold unvisited.
  apply filter_length_drop with (x := l).
  - intros y. cbn [existsb]. rewrite negb_orb.
    intros Q. now apply andb_true_iff in Q.
  - apply in_seq. lia.
  - now rewrite F.
  - cbn [existsb]. now rewrite Nat.eqb_refl.
Qed.

Lemma props_of_dangling (h : heap) (l : loc) :
  List.length h <= l -> props_of h l = [].
Proof.
  intros H. unfold props_of.
  now rewrite (proj2 (nth_error_None h l) H).
Qed.

(** The walk ends as soon as the fuel exceeds the number of objects it can
    still descend into, whatever the translators: the stack the built-in
    keeps never holds an object twice.  What it can end with besides a
    result is an error object of the engine or what the code of the page
    threw, a toJSON method or a getter. *)
Lemma Str_ended (P : thrown -> Prop) (ts : list (string * translator)) (h : heap) :
  (forall n m, P (ThrowNative n m)) ->
  (forall key v e, toJSON env h key v = Throw e -> P e) ->
  (forall l k e, read env h l k = Throw e -> P e) ->
  forall fuel stack seen key v,
    unvisited h stack < fuel ->
    ended P (Str env fuel ts h stack seen key v).
Proof.
  intros Pn Pj Pr.
  induction fuel as [|fuel IH]; intros stack seen key v F; [lia|].
  cbn [Str].
  destruct (toJSON env h key v) as [v0|e0] eqn:J; [|exact (Pj _ _ _ J)].
  pose proof (replacer_raises_native ts h seen v0) as R.
  destruct (circularRefSafeTranslate env ts h seen v0) as [e|r seen1].
  { destruct (R e eq_refl) as [n [m ->]]. apply Pn. }
  clear R.
  destruct r as [| |[|]|[z| | |]|s|l]; try exact I.
  assert (D : forall c,
     ended P
       (if existsb (Nat.eqb l) stack then Some (Raised cyclic_error)
        else match c with
             | CArray =>
                 match elements (Str env fuel ts h (l :: stack)) (read env h l)
                                (map p_key (props_of h l)) seen1 with
                 | None => None
                 | Some (Raised e) => Some (Raised e)
                 | Some (Done ms seen2) => Some (Done (JText ("[" ++ join "," ms ++ "]")) seen2)
                 end
             | _ =>
                 match members (Str env fuel ts h (l :: stack)) (read env h l)
                               (map p_key (enumerable (props_of h l))) seen1 with
                 | None => None
                 | Some (Raised e) => Some (Raised e)
                 | Some (Done ms seen2) => Some (Done (JText ("{" ++ join "," ms ++ "}")) seen2)
                 end
             end)).
  { intros c.
    destruct (existsb (Nat.eqb l) stack) eqn:X; [apply Pn|].
    destruct (Nat.lt_ge_cases l (List.length h)) as [V|V].
    - assert (Rec : forall seen' k' v',
                 ended P (Str env fuel ts h (l :: stack) seen' k' v')).
      { intros seen' k' v'. apply IH.
        pose proof (unvisited_push h stack l V X). lia. }
      pose proof (members_ended P _ (read env h l)
                                (map p_key (enumerable (props_of h l))) Rec (Pr l) seen1) as Sm.
      pose proof (elements_ended P _ (read env h l)
                                 (map p_key (props_of h l)) Rec (Pr l) seen1) as Se.
      destruct c.
      2: { destruct (elements _ _ (map p_key (props_of h l)) seen1) as [[e|ms s2]|];
           cbn in Se; try contradiction; [exact Se | exact I]. }
      all: destruct (members _ _ (map p_key (enumerable (props_of h l))) seen1)
             as [[e|ms s2]|];
        cbn in Sm; try contradiction; [exact Sm | exact I].
    - rewrite (props_of_dangling h l V). destruct c; exact I. }
  destruct (class_of h l) as [| | |text|].
  - apply (D CObject).
  - apply (D CArray).
  - exact I.
  - apply (D (CRegExp text)).
  - apply (D CError).
Qed.

(** On a passive heap the built-in runs the replacer and nothing else. *)
Lemma toJSON_passive (h : heap) (key : string) (v : value) :
  passive env h -> toJSON env h key v = Ret v.
Proof.
  intros [G T]. destruct v as [| |b|n|s|l]; try reflexivity.
  cbn [toJSON]. unfold read. rewrite G.
  specialize (T l).
  destruct (get_prop h l "toJSON") as [| |b|n|s|f]; try reflexivity.
  now rewrite T.
Qed.

Lemma read_passive (h : heap) (l : loc) (k : string) :
  passive env h -> read env h l k = Ret (get_prop h l k).
Proof.
  intros [G _]. unfold read. now rewrite G.
Qed.

Lemma Str_passive (ts : list (string * translator)) (h : heap) :
  passive env h ->
  forall fuel stack seen key v,
    unvisited h stack < fuel ->
    ended native (Str env fuel ts h stack seen key v).
Proof.
  intros Pa. apply Str_ended.
  - intros n m. exact I.
  - intros key v e. rewrite (toJSON_passive h key v Pa). discriminate.
  - intros l k e. rewrite (read_passive h l k Pa). discriminate.
Qed.

(** With the translators of the library, a walk that ends with a result
    ends with a text: undefined and functions were translated before the
    built-in looked at them. *)
Lemma Str_default_text (h : heap) (fuel : nat) (stack : list loc)
      (seen seen' : list value) (key : string) (v : value) (r : jtext) :
  Str env fuel (default_translators env) h stack seen key v = Some (Done r seen') ->
  exists t, r = JText t.
Proof.
  destruct fuel as [|fuel]; [discriminate|].
  cbn [Str].
  destruct (toJSON env h key v) as [v0|e0]; [|discriminate].
  pose proof (replacer_default h seen v0) as R.
  destruct (circularRefSafeTranslate env (default_translators env) h seen v0)
    as [e|w seen1]; [discriminate|].
  destruct w as [| |[|]|[z| | |]|s|l]; try contradiction;
    try (intros H; inversion H; eauto; fail).
  cbn in R.
  destruct (class_of h l); try contradiction;
    destruct (existsb (Nat.eqb l) stack); try discriminate.
  2: { destruct (elements _ _ (map p_key (props_of h l)) seen1) as [[e|ms s2]|];
       intros H; inversion H; eauto. }
  all: destruct (members _ _ (map p_key (enumerable (props_of h l))) seen1)
         as [[e|ms s2]|];
    intros H; inversion H; eauto.
Qed.

Lemma unvisited_bound (h : heap) (stack : list loc) :
  unvisited h stack <= List.length h.
Proof.
  unfold unvisited.
  pose proof (List.filter_length_le (fun l => negb (existsb (Nat.eqb l) stack))
                                    (seq 0 (List.length h))) as L.
  now rewrite length_seq in L.
Qed.

Lemma loaded_translators : translators (loaded env) = default_translators env.
Proof. reflexivity. Qed.

(** The fuel stringify gives the walk is enough, whatever the translators
    and the page: stringify is the outcome of the walk. *)
Lemma stringify_fuel_total (ts : list (string * translator)) (h : heap) (o : value) :
  exists r, stringify_fuel env (S (List.length h)) ts h o = Some r
            /\ stringify env ts h o = r.
Proof.
  unfold stringify, stringify_fuel, JSON_stringify.
  assert (Hs : ended (fun _ => True)
                     (Str env (S (List.length h)) ts h [] [] EmptyString o)).
  { apply Str_ended; try (intros; exact I). pose proof (unvisited_bound h []). lia. }
  destruct (Str env (S (List.length h)) ts h [] [] EmptyString o) as [[e|r seen]|];
    cbn in Hs; try contradiction.
  - eexists. split; reflexivity.
  - destruct r; eexists; split; reflexivity.
Qed.

(** On a passive heap stringify does not throw, whatever the translators. *)
Lemma stringify_passive (ts : list (string * translator)) (h : heap) (o : value) :
  passive env h ->
  exists v, stringify env ts h o = Ret v.
Proof.
  intros Pa. unfold stringify, stringify_fuel, JSON_stringify.
  assert (Hs : ended native (Str env (S (List.length h)) ts h [] [] EmptyString o)).
  { apply Str_passive; [exact Pa|]. pose proof (unvisited_bound h []). lia. }
  destruct (Str env (S (List.length h)) ts h [] [] EmptyString o) as [[e|r seen]|];
    cbn in Hs; try contradiction.
  - destruct e as [n m|v]; [|contradiction]. cbn. eauto.
  - destruct r; eauto.
Qed.

(** With the translators of the library the answer is then a string. *)
Lemma stringify_passive_text (h : heap) (o : value) :
  passive env h ->
  exists text, stringify env (default_translators env) h o = Ret (VStr text).
Proof.
  intros Pa. unfold stringify, stringify_fuel, JSON_stringify.
  assert (Hs : ended native
                     (Str env (S (List.length h)) (default_translators env) h [] []
                          EmptyString o)).
  { apply Str_passive; [exact Pa|]. pose proof (unvisited_bound h []). lia. }
  destruct (Str env (S (List.length h)) (default_translators env) h [] [] EmptyString o)
    as [[e|r seen]|] eqn:E; cbn in Hs; try contradiction.
  - destruct e as [n m|v]; [|contradiction]. cbn. eauto.
  - destruct (Str_default_text _ _ _ _ _ _ _ _ E) as [t ->]. eauto.
Qed.

End SerializerFacts.

(** A jQuery wrapper whose DOM serialization fails costs one field, not the
    serialization. *)
Example stringify_translation_error :
  stringify browser (translators (loaded browser))
            [ mkObj CObject [mkProp "node" (VObj 1) true; mkProp "n" (VNum (Fin 2)) true];
              mkObj CObject [mkProp "jquery" (VStr "1.7.2") false] ]
            (VObj 0)
  = Ret (VStr ("{" ++ dquote ++ "node" ++ dquote ++ ":" ++ dquote
               ++ "[translation error]: $o.clone is not a function" ++ dquote
               ++ "," ++ dquote ++ "n" ++ dquote ++ ":2}")).
Proof.
  vm_compute. reflexivity.
Qed.

(** The object a with a.self = a serializes to an object whose self
    member is the placeholder JSON.circularRef_0. *)
Example stringify_self_reference :
  stringify browser (translators (loaded browser))
            [mkObj CObject [mkProp "self" (VObj 0) true]] (VObj 0)
  = Ret (VStr ("{" ++ dquote ++ "self" ++ dquote ++ ":" ++ dquote
               ++ "JSON.circularRef_0" ++ dquote ++ "}")).
Proof.
  vm_compute. reflexivity.
Qed.

(** An array that holds the same object twice: the second occurrence is
    the placeholder naming the position of the object in the seen list. *)
Example stringify_array_repeat :
  stringify browser (translators (loaded browser))
            [ mkObj CArray [mkProp "0" (VObj 1) true; mkProp "1" (VObj 1) true];
              mkObj CObject [mkProp "n" (VNum (Fin 7)) true] ]
            (VObj 0)
  = Ret (VStr ("[{" ++ dquote ++ "n" ++ dquote ++ ":7}," ++ dquote
               ++ "JSON.circularRef_1" ++ dquote ++ "]")).
Proof.
  vm_compute. reflexivity.
Qed.

(** C2 (the code at the failing input, and for every input of its kind).
    JSON.stringify calls the toJSON method of a value, and the getters of
    its members, outside the replacer.  When one of them throws null or
    undefined, the catch block of stringify reads the message of that, which
    raises a TypeError: stringify throws instead of returning a failure
    string.  The first part is an object whose toJSON method throws; the
    second an object, with the translators of the library, whose first member
    is an accessor that throws.  The placeholder for a value seen before is
    as claimed, whatever the translators. *)
Theorem stringify_raises_on_thrown_null (env : Host) :
  (forall (ts : list (string * translator)) (h : heap) (l f : loc) (nothing : value),
      read env h l "toJSON" = Ret (VObj f) ->
      isFunction h (VObj f) = true ->
      call env h f (VObj l) [VStr EmptyString] = Throw (ThrowValue nothing) ->
      nothing = VNull \/ nothing = VUndefined ->
      exists m, stringify env ts h (VObj l) = Throw (ThrowNative "TypeError" m))
  /\ (forall (h : heap) (l : loc) (k : string) (rest : list string) (nothing : value),
         class_of h l = CObject ->
         toJSON env h EmptyString (VObj l) = Ret (VObj l) ->
         getter env h l "jquery" = None ->
         truthy (get_prop h l "jquery") = false ->
         map p_key (enumerable (props_of h l)) = k :: rest ->
         getter env h l k = Some (Throw (ThrowValue nothing)) ->
         nothing = VNull \/ nothing = VUndefined ->
         exists m,
           stringify env (translators (loaded env)) h (VObj l)
           = Throw (ThrowNative "TypeError" m))
  /\ (forall (ts : list (string * translator)) (h : heap) (seen : list value)
             (v : value) (seenAt : nat),
         typeof h v = TObject ->
         inArray v seen = Some seenAt ->
         circularRefSafeTranslate env ts h seen v
         = Done (VStr ("JSON.circularRef_" ++ dec seenAt)) seen).
Proof.
  split; [|split].
  - intros ts h l f nothing R F C N.
    assert (J : Str env (S (List.length h)) ts h [] [] EmptyString (VObj l)
                = Some (Raised (ThrowValue nothing))).
    { cbn [Str toJSON]. now rewrite R, F, C. }
    unfold stringify, stringify_fuel, JSON_stringify. rewrite J.
    destruct N as [-> | ->]; eexists; reflexivity.
  - intros h l k rest nothing C T _ Q K G N. rewrite loaded_translators.
    assert (J : Str env (S (List.length h)) (default_translators env) h [] []
                    EmptyString (VObj l)
                = Some (Raised (ThrowValue nothing))).
    { cbn [Str]. rewrite T.
      unfold circularRefSafeTranslate, default_translators. cbn [typeof]. rewrite C.
      cbn [jstype_eqb inArray apply_translators translator_undefined
           translator_function translator_RegExp translator_NaN translator_infinite
           translator_jQuery t_evaluator t_translator strict_eqb truthy app
           isReallyNaN isInfinite orb].
      unfold isFunction. cbn [typeof]. rewrite C. cbn [jstype_eqb truthy].
      unfold isJQuery. cbn [truthy get]. rewrite Q.
      cbn [existsb]. rewrite K. cbn [members]. unfold read. now rewrite G, C. }
    unfold stringify, stringify_fuel, JSON_stringify. rewrite J.
    destruct N as [-> | ->]; eexists; reflexivity.
  - intros. now apply replacer_placeholder.
Qed.

(** The failing input: an object whose toJSON method throws null, on a page
    whose functions do that; and an object whose member secret is an accessor
    that throws undefined. *)
Lemma stringify_raises_on_thrown_null_witness :
  (exists m,
      stringify throwing_functions (translators (loaded throwing_functions))
                [ mkObj CObject [mkProp "toJSON" (VObj 1) true]; mkObj CFunction [] ]
                (VObj 0)
      = Throw (ThrowNative "TypeError" m))
  /\ (exists m,
         stringify throwing_getter (translators (loaded throwing_getter))
                   [ mkObj CObject [mkProp "secret" VNull true] ]
                   (VObj 0)
         = Throw (ThrowNative "TypeError" m)).
Proof.
  destruct (stringify_raises_on_thrown_null throwing_functions) as [Hook _].
  destruct (stringify_raises_on_thrown_null throwing_getter) as [_ [Getter _]].
  split.
  - apply (Hook (translators (loaded throwing_functions))
                [ mkObj CObject [mkProp "toJSON" (VObj 1) true]; mkObj CFunction [] ]
                0 1 VNull); try reflexivity. now left.
  - apply (Getter [ mkObj CObject [mkProp "secret" VNull true] ] 0 "secret" [] VUndefined);
      try reflexivity. now right.
Defined.

(** ** Exception creation *)

Section LibraryFacts.

Variable env : Host.

Lemma update_nth_last {A : Type} (f : A -> A) (xs : list A) (x : A) :
  update_nth (List.length xs) f (xs ++ [x])%list = (xs ++ [f x])%list.
Proof.
  induction xs as [|y xs IH]; simpl; [reflexivity | now rewrite IH].
Qed.

Lemma heap_put_last (h : heap) (o : obj) (k : string) (v : value) :
  heap_put (h ++ [o])%list (List.length h) k v
  = (h ++ [mkObj (o_class o) (put_prop k v (o_props o))])%list.
Proof.
  unfold heap_put. now rewrite update_nth_last.
Qed.

Lemma get_prop_last (h : heap) (o : obj) (k : string) :
  get_prop (h ++ [o])%list (List.length h) k
  = match find_prop k (o_props o) with
    | Some p => p_val p
    | None => match o_class o with
              | CError => if String.eqb k "message" then VStr EmptyString else VUndefined
              | _ => VUndefined
              end
    end.
Proof.
  unfold get_prop, props_of, class_of.
  now rewrite nth_error_app2, Nat.sub_diag by lia.
Qed.

(** What one call of a factory does: it returns undefined; the new error is
    the last object of the heap and the last entry of [errors]; the options of
    the call are written into the stored options of the factory. *)
Lemma factory_spec (type : string) (msg opts : value) (s : state) :
  exists o : obj,
    factory env type msg opts s
    = (Ret VUndefined,
       mkState (store s ++ [o])%list
               (errors s ++ [VObj (List.length (store s))])%list
               (assoc_put type
                          (extend match assoc_get type (errorFactories s) with
                                  | Some stored => stored
                                  | None => []
                                  end
                                  (extend_source (store s) opts))
                          (errorFactories s))
               (translators s) (reportHandlers s)
               (alertOnAssertFailure s) (debugOnAssertFailure s)
               (oopsie_report s) (trace s))
    /\ o_class o = CError
    /\ find_prop "type" (o_props o) = Some (mkProp "type" (VStr type) true)
    /\ find_prop "message" (o_props o)
       = Some (mkProp "message"
                      (VStr (oopsieID (List.length (errors s)) ++ raw_message env (store s) msg))
                      (strict_eqb msg VUndefined)).
Proof.
  unfold factory, registerError, getStackTrace, canStackTrace, raw_message, new_Error.
  unfold put. unfold bind, gets, modify, alloc, ret. state_simpl.
  destruct (printStackTrace env) as [capture|]; state_simpl;
    destruct (truthy _); state_simpl;
    rewrite ?heap_put_last; state_simpl;
    rewrite ?get_prop_last; state_simpl;
    destruct (strict_eqb msg VUndefined);
    eexists; (split; [reflexivity|]); cbn; repeat split.
Qed.

Lemma makeError_registered (type : string) (msg opts : value) (s : state) :
  assoc_has type (errorFactories s) = true ->
  makeError env type msg opts s = factory env type msg opts s.
Proof.
  intros H. unfold makeError, bind, gets, lookup_factory. now rewrite H.
Qed.

Lemma makeError_unknown (type : string) (msg opts : value) (s : state) :
  assoc_has type (errorFactories s) = false ->
  inherited env type = None ->
  assoc_has "oopsieError" (errorFactories s) = true ->
  makeError env type msg opts s
  = factory env "oopsieError"
            (VStr ("[oopsie.makeError] unknown error type" ++ nl ++
                   "type = " ++ dquote ++ type ++ dquote ++ nl ++
                   to_string env (store s) msg))
            opts s.
Proof.
  intros H I F. unfold makeError, bind, gets, lookup_factory. now rewrite H, I, F.
Qed.

(** A type named like a member the table inherits: that member is called,
    no factory is, and nothing is registered. *)
Lemma makeError_inherited (type : string) (member : builtin) (msg opts : value)
      (s : state) :
  assoc_has type (errorFactories s) = false ->
  inherited env type = Some member ->
  makeError env type msg opts s
  = (fst (member (store s) msg opts),
     set_store (store s ++ snd (member (store s) msg opts))%list s).
Proof.
  intros H I. unfold makeError, bind, gets, lookup_factory, call_builtin.
  rewrite H, I. now destruct (member (store s) msg opts).
Qed.

(** A factory hands back undefined, and makeError hands that on. *)
Lemma makeError_returns_undefined (type : string) (msg opts : value) (s s' : state)
      (r : value) :
  assoc_has type (errorFactories s) = true ->
  makeError env type msg opts s = (Ret r, s') -> r = VUndefined.
Proof.
  intros H. rewrite (makeError_registered _ _ _ _ H).
  destruct (factory_spec type msg opts s) as [o [-> _]].
  now inversion 1.
Qed.

Lemma assoc_replace_same {A : Type} (k : string) (a : A) (kvs : list (string * A)) :
  assoc_get k kvs = Some a -> assoc_replace k a kvs = kvs.
Proof.
  induction kvs as [|[k' a'] kvs IH]; simpl; [reflexivity|].
  destruct (String.eqb_spec k' k) as [->|].
  - now inversion 1.
  - intros H. now rewrite (IH H).
Qed.

Lemma assoc_put_same {A : Type} (k : string) (a : A) (kvs : list (string * A)) :
  assoc_get k kvs = Some a -> assoc_put k a kvs = kvs.
Proof.
  intros H. unfold assoc_put, assoc_has. rewrite H. now apply assoc_replace_same.
Qed.

Lemma assoc_get_replace {A : Type} (k : string) (a : A) (kvs : list (string * A)) :
  assoc_has k kvs = true -> assoc_get k (assoc_replace k a kvs) = Some a.
Proof.
  unfold assoc_has.
  induction kvs as [|[k' a'] kvs IH]; simpl; [discriminate|].
  destruct (String.eqb_spec k' k) as [->|N]; simpl.
  - now rewrite String.eqb_refl.
  - destruct (String.eqb_spec k' k); [contradiction | exact IH].
Qed.

Lemma assoc_get_app_fresh {A : Type} (k : string) (a : A) (kvs : list (string * A)) :
  assoc_get k kvs = None -> assoc_get k (kvs ++ [(k, a)])%list = Some a.
Proof.
  induction kvs as [|[k' a'] kvs IH]; simpl.
  - now rewrite String.eqb_refl.
  - destruct (String.eqb k' k); [discriminate | exact IH].
Qed.

Lemma assoc_get_insert_index {A : Type} (n : N) (k : string) (a : A)
      (kvs : list (string * A)) :
  assoc_get k kvs = None -> assoc_get k (insert_index n k a kvs) = Some a.
Proof.
  induction kvs as [|[k' a'] kvs IH]; cbn [insert_index assoc_get].
  - now rewrite String.eqb_refl.
  - destruct (String.eqb k' k) eqn:E; [discriminate|]. intros H.
    destruct (array_index k') as [m|]; [destruct (N.ltb n m)|]; cbn [assoc_get];
      rewrite ?String.eqb_refl, ?E; auto.
Qed.

Lemma assoc_get_put {A : Type} (k : string) (a : A) (kvs : list (string * A)) :
  assoc_get k (assoc_put k a kvs) = Some a.
Proof.
  unfold assoc_put. destruct (assoc_has k kvs) eqn:H.
  - now apply assoc_get_replace.
  - unfold assoc_has in H.
    destruct (assoc_get k kvs) eqn:G; [discriminate|].
    destruct (array_index k).
    + now apply assoc_get_insert_index.
    + now apply assoc_get_app_fresh.
Qed.

Lemma assoc_get_replace_other {A : Type} (k k' : string) (a : A)
      (kvs : list (string * A)) :
  k' <> k -> assoc_get k' (assoc_replace k a kvs) = assoc_get k' kvs.
Proof.
  intros N. induction kvs as [|[k0 a0] kvs IH]; simpl; [reflexivity|].
  destruct (String.eqb_spec k0 k) as [->|]; simpl.
  - destruct (String.eqb_spec k k'); [congruence | reflexivity].
  - destruct (String.eqb_spec k0 k'); [reflexivity | exact IH].
Qed.

Lemma assoc_get_insert_index_other {A : Type} (n : N) (k k' : string) (a : A)
      (kvs : list (string * A)) :
  k' <> k -> assoc_get k' (insert_index n k a kvs) = assoc_get k' kvs.
Proof.
  intros N. induction kvs as [|[k0 a0] kvs IH]; cbn [insert_index assoc_get].
  - destruct (String.eqb_spec k k'); [congruence | reflexivity].
  - destruct (array_index k0) as [m|]; [destruct (N.ltb n m)|]; cbn [assoc_get].
    + destruct (String.eqb_spec k k'); [congruence | reflexivity].
    + destruct (String.eqb k0 k'); [reflexivity | exact IH].
    + destruct (String.eqb_spec k k'); [congruence | reflexivity].
Qed.

Lemma assoc_get_app_other {A : Type} (k k' : string) (a : A) (kvs : list (string * A)) :
  k' <> k -> assoc_get k' (kvs ++ [(k, a)])%list = assoc_get k' kvs.
Proof.
  intros N. induction kvs as [|[k0 a0] kvs IH]; simpl.
  - destruct (String.eqb_spec k k'); [congruence | reflexivity].
  - destruct (String.eqb k0 k'); [reflexivity | exact IH].
Qed.

Lemma assoc_get_put_other {A : Type} (k k' : string) (a : A) (kvs : list (string * A)) :
  k' <> k -> assoc_get k' (assoc_put k a kvs) = assoc_get k' kvs.
Proof.
  intros N. unfold assoc_put. destruct (assoc_has k kvs).
  - now apply assoc_get_replace_other.
  - destruct (array_index k).
    + now apply assoc_get_insert_index_other.
    + now apply assoc_get_app_other.
Qed.

(** A name that is no array index and not in the table yet goes last. *)
Lemma assoc_put_fresh {A : Type} (k : string) (a : A) (kvs : list (string * A)) :
  assoc_has k kvs = false -> array_index k = None ->
  assoc_put k a kvs = (kvs ++ [(k, a)])%list.
Proof.
  intros H I. unfold assoc_put. now rewrite H, I.
Qed.


(** Called without options, makeError leaves the factories as they are and
    only adds to the heap. *)
Lemma makeError_frame (type : string) (msg : value) (s : state) :
  exists r extra,
    fst (makeError env type msg VUndefined s) = r
    /\ errorFactories (snd (makeError env type msg VUndefined s)) = errorFactories s
    /\ translators (snd (makeError env type msg VUndefined s)) = translators s
    /\ trace (snd (makeError env type msg VUndefined s)) = trace s
    /\ store (snd (makeError env type msg VUndefined s)) = (store s ++ extra)%list.
Proof.
  assert (K : forall t m, assoc_has t (errorFactories s) = true ->
     exists r extra,
       fst (factory env t m VUndefined s) = r
       /\ errorFactories (snd (factory env t m VUndefined s)) = errorFactories s
       /\ translators (snd (factory env t m VUndefined s)) = translators s
       /\ trace (snd (factory env t m VUndefined s)) = trace s
       /\ store (snd (factory env t m VUndefined s)) = (store s ++ extra)%list).
  { intros t m H. destruct (factory_spec t m VUndefined s) as [o [-> _]].
    state_simpl. exists (Ret VUndefined), [o]. repeat split.
    unfold assoc_has in H.
    destruct (assoc_get t (errorFactories s)) as [stored|] eqn:G; [|discriminate].
    cbn. now apply assoc_put_same. }
  assert (B : forall (member : builtin) m,
     exists r extra,
       fst (call_builtin member m VUndefined s) = r
       /\ errorFactories (snd (call_builtin member m VUndefined s)) = errorFactories s
       /\ translators (snd (call_builtin member m VUndefined s)) = translators s
       /\ trace (snd (call_builtin member m VUndefined s)) = trace s
       /\ store (snd (call_builtin member m VUndefined s)) = (store s ++ extra)%list).
  { intros member m. unfold call_builtin.
    destruct (member (store s) m VUndefined) as [r made]. state_simpl.
    exists r, made. repeat split. }
  unfold makeError, bind, gets, lookup_factory.
  destruct (assoc_has type (errorFactories s)) eqn:H; [now apply K|].
  destruct (inherited env type) as [member|]; [apply B|].
  destruct (assoc_has "oopsieError" (errorFactories s)) eqn:F; [now apply K|].
  destruct (inherited env "oopsieError") as [member|]; [apply B|].
  unfold throw. state_simpl.
  eexists; exists []. repeat split. now rewrite app_nil_r.
Qed.

End LibraryFacts.

Section RegistrationFacts.

Variable env : Host.

Lemma stringify_each_state (msgArgs : list value) (s : state) :
  snd (stringify_each env msgArgs s) = s.
Proof.
  induction msgArgs as [|a rest IH]; [reflexivity|].
  cbn [stringify_each]. unfold bind, stringify_now, ret.
  destruct (stringify env (translators s) (store s) a); [|reflexivity].
  destruct (stringify_each env rest s) as [[ts|e] s1] eqn:E;
    apply (f_equal snd) in E; rewrite IH in E; cbn in E; now subst.
Qed.



(** A translator stored under a name in use: addTranslator returns, and the
    name now answers with the new pair. *)
Lemma addTranslator_overwrites (name : string)
      (evaluator translate : heap -> value -> outcome value) (s : state) :
  name <> EmptyString ->
  addTranslator env name evaluator translate s
  = (Ret tt, set_translators
               (assoc_put name (mkTranslator evaluator translate) (translators s)) s).
Proof.
  intros N. unfold addTranslator, bind, assert.
  destruct name; [contradiction | reflexivity].
Qed.

End RegistrationFacts.

(** C1 (the code, for every call of a factory).  After a factory call the
    new record is the entry of [errors] at the position its token names and
    its message is that token followed by the message it was given; yet
    retrieveError on that message answers null. *)
Theorem retrieveError_after_factory (env : Host) (type : string) (msg opts : value)
        (s : state) :
  let s' := snd (factory env type msg opts s) in
  let pos := List.length (errors s) in
  let displayMessage := oopsieID pos ++ raw_message env (store s) msg in
  array_get (errors s') pos = VObj (List.length (store s))
  /\ get_prop (store s') (List.length (store s)) "message" = VStr displayMessage
  /\ retrieveError (errors s') displayMessage = VNull.
Proof.
  cbv zeta.
  destruct (factory_spec env type msg opts s) as [o [-> [C [_ Mg]]]].
  state_simpl. repeat split.
  - unfold array_get. now rewrite nth_middle.
  - rewrite get_prop_last, Mg. reflexivity.
  - apply retrieveError_stored_position. rewrite length_app. simpl. lia.
Qed.

(** A type named toString finds Object.prototype.toString in the table:
    makeError calls it and returns its text; no record is made. *)
Example makeError_toString :
  makeError browser "toString" (VStr "boom") VUndefined (loaded browser)
  = (Ret (VStr "[object Undefined]"), loaded browser).
Proof.
  vm_compute. reflexivity.
Qed.

(** C7 (the code, for every type that finds nothing in the table).
    makeError for a type nobody registered, and whose name is not that of a
    member the table inherits, returns undefined.  The record it builds is
    only stored, at the end of the heap and of the registry: its type is
    oopsieError, its message names the unknown type and ends in the message
    given. *)
Theorem makeError_unknown_type_returns_undefined (env : Host) (type : string)
        (msg opts : value) (s : state) :
  assoc_has type (errorFactories s) = false ->
  inherited env type = None ->
  assoc_has "oopsieError" (errorFactories s) = true ->
  let r := makeError env type msg opts s in
  fst r = Ret VUndefined
  /\ errors (snd r) = (errors s ++ [VObj (List.length (store s))])%list
  /\ get_prop (store (snd r)) (List.length (store s)) "type" = VStr "oopsieError"
  /\ get_prop (store (snd r)) (List.length (store s)) "message"
     = VStr (oopsieID (List.length (errors s)) ++
             "[oopsie.makeError] unknown error type" ++ nl ++
             "type = " ++ dquote ++ type ++ dquote ++ nl ++
             to_string env (store s) msg).
Proof.
  intros H I F. cbv zeta. rewrite (makeError_unknown env _ _ _ _ H I F).
  match goal with |- context [factory env ?t ?m ?o s] =>
    destruct (factory_spec env t m o s) as [rec [-> [_ [Ty Mg]]]] end.
  state_simpl. rewrite !get_prop_last, Ty, Mg.
  repeat split.
Qed.

Lemma makeError_unknown_type :
  let r := makeError browser "doesNotExist" (VStr "boom") VUndefined (loaded browser) in
  fst r = Ret VUndefined
  /\ errors (snd r) = [VObj 0]
  /\ get_prop (store (snd r)) 0 "type" = VStr "oopsieError"
  /\ get_prop (store (snd r)) 0 "message"
     = VStr ("__oopsieID_0__[oopsie.makeError] unknown error type" ++ nl ++
             "type = " ++ dquote ++ "doesNotExist" ++ dquote ++ nl ++ "boom").
Proof.
  exact (makeError_unknown_type_returns_undefined
           browser "doesNotExist" (VStr "boom") VUndefined (loaded browser)
           eq_refl eq_refl eq_refl).
Defined.

(** C9 (the code, for every call).  After a call of a factory the options
    stored for it are what the call merged: the options of the call written
    over what was stored, there for every later call. *)
Theorem factory_stores_call_options (env : Host) (type : string) (msg opts : value)
        (s : state) (stored : options) :
  assoc_get type (errorFactories s) = Some stored ->
  assoc_get type (errorFactories (snd (factory env type msg opts s)))
  = Some (extend stored (extend_source (store s) opts)).
Proof.
  intros H. destruct (factory_spec env type msg opts s) as [o [-> _]].
  state_simpl. rewrite H. apply assoc_get_put.
Qed.

(** A factory made with the default options, and an options object that
    sets reportImmediately, at position 0 of the heap. *)
Lemma factory_call_changes_defaults :
  assoc_get "networkError" (errorFactories networkError_made)
  = Some [("reportImmediately", VBool false)]
  /\ assoc_get "networkError"
               (errorFactories
                  (snd (factory browser "networkError" (VStr "first") (VObj 0)
                                networkError_made)))
     = Some [("reportImmediately", VBool true)].
Proof.
  split; [reflexivity|].
  exact (factory_stores_call_options
           browser "networkError" (VStr "first") (VObj 0) networkError_made
           [("reportImmediately", VBool false)] eq_refl).
Defined.




(** ** Audit wrappers *)

Section AuditFacts.

Variable env : Host.

(** The inner try block never completes: its steps throw, or its last
    statement does. *)
Lemma augment_throws (name : string) (context : value) (arguments : loc)
      (err : thrown) (s : state) :
  exists e',
    augment env name context arguments err s
    = (Throw e', snd (augment_steps env name context arguments err s)).
Proof.
  unfold augment, bind, throw.
  destruct (augment_steps env name context arguments err s) as [[newError|e] s'];
    eexists; reflexivity.
Qed.

(** When a step throws, nothing has been written yet: the state is as it
    was, or as the call of makeError for a plain value left it. *)
Lemma augment_steps_throw_state (name : string) (context : value) (arguments : loc)
      (err e' : thrown) (s s' : state) :
  augment_steps env name context arguments err s = (Throw e', s') ->
  s' = s \/ s' = snd (makeError env "oopsieError" VUndefined VUndefined s).
Proof.
  assert (K : forall (newError : thrown) (s0 : state),
             (h0 <- gets store ;;
              message0 <- lift (thrown_message h0 newError) ;;
              text <- stringify_now env (VObj arguments) ;;
              h <- gets store ;;
              shown <- lift (call_toString env h context) ;;
              message <- read_message env ;;
              put_message newError message ;;
              ret newError) s0 = (Throw e', s') -> s' = s0).
  { intros newError s0. unfold bind, gets, lift, stringify_now, ret, read_message, undeclared, throw.
    destruct (thrown_message (store s0) newError) as [m0|e0]; [|now inversion 1].
    destruct (stringify env (translators s0) (store s0) (VObj arguments)) as [text|e1];
      [|now inversion 1].
    destruct (call_toString env (store s0) context) as [shown|e2]; [|now inversion 1].
    destruct (global_message env) as [v|]; [|now inversion 1].
    destruct newError as [n m|[| |b|n|t|l]]; cbn [put_message];
      unfold ret, throw, put, modify; try (now inversion 1); discriminate. }
  unfold augment_steps. unfold bind at 1. unfold gets at 1.
  destruct (negb (jstype_eqb (typeof_thrown (store s) err) TObject)).
  - unfold bind at 1. unfold bind at 1.
    destruct (makeError env "oopsieError" VUndefined VUndefined s) as [[v|e] s1] eqn:E.
    + unfold ret at 1. intros H. right. cbn [snd]. exact (K _ _ H).
    + intros H. inversion H. now right.
  - unfold ret at 1. intros H. left. exact (K _ _ H).
Qed.

Lemma augment_steps_frame (name : string) (context : value) (arguments : loc)
      (err e' : thrown) (s s' : state) :
  augment_steps env name context arguments err s = (Throw e', s') ->
  exists extra, store s' = (store s ++ extra)%list.
Proof.
  intros H. destruct (augment_steps_throw_state _ _ _ _ _ _ _ H) as [-> | ->].
  - exists []. now rewrite app_nil_r.
  - destruct (makeError_frame env "oopsieError" VUndefined s)
      as [r [extra [_ [_ [_ [_ St]]]]]].
    now exists extra.
Qed.

(** Without a global named message the steps always throw: at the latest
    where they read that identifier. *)
Lemma augment_steps_undeclared (name : string) (context : value) (arguments : loc)
      (err : thrown) (s : state) :
  global_message env = None ->
  exists e' s', augment_steps env name context arguments err s = (Throw e', s').
Proof.
  intros G.
  assert (K : forall (newError : thrown) (s0 : state), exists e' s',
             (h0 <- gets store ;;
              message0 <- lift (thrown_message h0 newError) ;;
              text <- stringify_now env (VObj arguments) ;;
              h <- gets store ;;
              shown <- lift (call_toString env h context) ;;
              message <- read_message env ;;
              put_message newError message ;;
              ret newError) s0 = (Throw e', s')).
  { intros newError s0.
    unfold bind, gets, lift, stringify_now, ret, read_message, undeclared, throw.
    rewrite G.
    destruct (thrown_message (store s0) newError) as [m0|e0]; [|eauto].
    destruct (stringify env (translators s0) (store s0) (VObj arguments)) as [text|e1];
      [|eauto].
    destruct (call_toString env (store s0) context) as [shown|e2]; eauto. }
  unfold augment_steps. unfold bind at 1. unfold gets at 1.
  destruct (negb (jstype_eqb (typeof_thrown (store s) err) TObject)).
  - unfold bind at 1. unfold bind at 1.
    destruct (makeError env "oopsieError" VUndefined VUndefined s) as [[v|e] s1] eqn:E.
    + unfold ret at 1. apply K.
    + eauto.
  - unfold ret at 1. apply K.
Qed.

(** For a caught value that is not an object, the inner try block stops
    right after the call of makeError: the record it made stays stored, and
    reading the message of what makeError returned throws. *)
Lemma augment_plain (name : string) (context : value) (arguments : loc)
      (err : thrown) (s : state) :
  jstype_eqb (typeof_thrown (store s) err) TObject = false ->
  assoc_has "oopsieError" (errorFactories s) = true ->
  exists e',
    augment env name context arguments err s
    = (Throw e', snd (factory env "oopsieError" VUndefined VUndefined s)).
Proof.
  intros T F. unfold augment, augment_steps. unfold bind at 1. unfold bind at 1.
  unfold gets at 1.
  rewrite T. cbn [negb]. unfold bind at 1. unfold bind at 1.
  rewrite (makeError_registered env _ _ _ _ F).
  destruct (factory_spec env "oopsieError" VUndefined VUndefined s) as [o [-> _]].
  unfold ret, bind, gets, lift. cbn [thrown_message get snd].
  eexists. reflexivity.
Qed.

End AuditFacts.

Lemma string_app_nil_r (a : string) : a ++ EmptyString = a.
Proof.
  induction a as [|c a IH]; simpl; [reflexivity | now rewrite IH].
Qed.

(** C3 (the code, for every thrown value that is not an object).  The
    wrapper throws the plain value it caught, not a record.  The record that
    makeError built on the way is left in the registry with the bare token
    as its message: no label, no Arguments:, no serialized arguments. *)
Theorem audited_rethrows_plain_value (env : Host) (name : string) (fn : jsfun)
        (context : value) (args : list value) (s s1 : state) (v : value) :
  jstype_eqb (typeof (store s1) v) TObject = false ->
  assoc_has "oopsieError" (errorFactories s1) = true ->
  fn context args (snd (alloc (arguments_object args) s)) = (Throw (ThrowValue v), s1) ->
  exists s2,
    audited env name fn context args s = (Throw (ThrowValue v), s2)
    /\ errors s2 = (errors s1 ++ [VObj (List.length (store s1))])%list
    /\ get_prop (store s2) (List.length (store s1)) "message"
       = VStr (oopsieID (List.length (errors s1))).
Proof.
  intros T F H. unfold audited, bind, alloc, try_catch. state_simpl.
  unfold alloc in H. state_simpl_in H. rewrite H.
  destruct (augment_plain env name context (List.length (store s)) (ThrowValue v) s1 T F)
    as [e' ->].
  eexists. split; [reflexivity|].
  destruct (factory_spec env "oopsieError" VUndefined VUndefined s1) as [o [-> [_ [_ Mg]]]].
  state_simpl. split; [reflexivity|].
  rewrite get_prop_last, Mg. cbn [p_val]. unfold raw_message. cbn [strict_eqb].
  now rewrite string_app_nil_r.
Qed.

Lemma audited_rethrows_plain_value_witness :
  exists s2,
    audited browser "f" (fun _ _ => throw (ThrowValue (VStr "boom"))) VNull
            [VNum (Fin 1)] (loaded browser)
    = (Throw (ThrowValue (VStr "boom")), s2)
    /\ errors s2 = [VObj 1]
    /\ get_prop (store s2) 1 "message" = VStr "__oopsieID_0__".
Proof.
  exact (audited_rethrows_plain_value
           browser "f" (fun _ _ => throw (ThrowValue (VStr "boom"))) VNull
           [VNum (Fin 1)] (loaded browser)
           (snd (alloc (arguments_object [VNum (Fin 1)]) (loaded browser)))
           (VStr "boom") eq_refl eq_refl eq_refl).
Defined.

(** The same through audit itself, which first makes the context object:
    the function throws the string boom, and so does the function audit
    returned for it, labelled f and called with 1. *)
Example audit_rethrows_boom :
  let fn : jsfun := fun _ _ => throw (ThrowValue (VStr "boom")) in
  let r := (wrapped <- audit browser "f" fn VUndefined ;; wrapped [VNum (Fin 1)])
             (loaded browser) in
  fst r = Throw (ThrowValue (VStr "boom"))
  /\ errors (snd r) = [VObj 2]
  /\ get_prop (store (snd r)) 2 "message" = VStr "__oopsieID_0__".
Proof.
  vm_compute. repeat split.
Qed.

(** An error object thrown through the wrapper comes out with the message
    it went in with. *)
Example audit_rethrows_error_object :
  let fn : jsfun := fun _ _ =>
    e <- alloc (mkObj CError [mkProp "message" (VStr "disk full") false]) ;;
    throw (ThrowValue (VObj e)) in
  let r := (wrapped <- audit browser "f" fn VUndefined ;; wrapped [VNum (Fin 1)])
             (loaded browser) in
  fst r = Throw (ThrowValue (VObj 2))
  /\ get_prop (store (snd r)) 2 "message" = VStr "disk full".
Proof.
  vm_compute. split; reflexivity.
Qed.

(** On a page with an element whose id is message the steps do not throw:
    the assignment goes through and puts that element in the place of the
    message of the error the function threw, which is then thrown again. *)
Example audit_overwrites_message :
  let fn : jsfun := fun _ _ =>
    e <- alloc (mkObj CError [mkProp "message" (VStr "disk full") false]) ;;
    throw (ThrowValue (VObj e)) in
  let r := (element <- alloc (mkObj CObject []) ;;
            wrapped <- audit (page_with_message 0) "f" fn VUndefined ;;
            wrapped [VNum (Fin 1)])
             (loaded (page_with_message 0)) in
  fst r = Throw (ThrowValue (VObj 3))
  /\ get_prop (store (snd r)) 3 "message" = VObj 0.
Proof.
  vm_compute. split; reflexivity.
Qed.

(** C4.  When the wrapped function throws, the wrapper throws the very
    value it caught, always.  When a step of the inner try block throws (the
    normalization, the building of the message, the assignment), every
    object that was on the heap when the function threw, the thrown one
    included, is as the function left it.  On a page without a global named
    message a step always throws. *)
Theorem audited_rethrows_original (env : Host) (name : string) (fn : jsfun)
        (context : value) (args : list value) (s s1 : state) (e : thrown) :
  fn context args (snd (alloc (arguments_object args) s)) = (Throw e, s1) ->
  (exists s2, audited env name fn context args s = (Throw e, s2))
  /\ (forall e2 s2,
         augment_steps env name context (List.length (store s)) e s1 = (Throw e2, s2) ->
         audited env name fn context args s = (Throw e, s2)
         /\ forall l o, nth_error (store s1) l = Some o -> nth_error (store s2) l = Some o)
  /\ (global_message env = None ->
      exists e2 s2,
        augment_steps env name context (List.length (store s)) e s1 = (Throw e2, s2)).
Proof.
  intros H.
  assert (A : audited env name fn context args s
              = (Throw e, snd (augment_steps env name context (List.length (store s)) e s1))).
  { unfold audited, bind, alloc, try_catch. state_simpl.
    unfold alloc in H. state_simpl_in H. rewrite H.
    destruct (augment_throws env name context (List.length (store s)) e s1) as [e' ->].
    reflexivity. }
  split; [|split].
  - eexists. exact A.
  - intros e2 s2 St. rewrite A, St. split; [reflexivity|].
    destruct (augment_steps_frame env _ _ _ _ _ _ _ St) as [extra E].
    intros l o N. rewrite E.
    rewrite nth_error_app1; [exact N|].
    apply nth_error_Some. now rewrite N.
  - intros G. apply augment_steps_undeclared. exact G.
Qed.

Lemma audited_rethrows_original_witness :
  (exists s2,
      audited browser "f" (fun _ _ => throw (ThrowValue (VStr "boom"))) VNull
              [VNum (Fin 1)] (loaded browser)
      = (Throw (ThrowValue (VStr "boom")), s2))
  /\ (exists e2 s2,
         augment_steps browser "f" VNull 0 (ThrowValue (VStr "boom"))
                       (snd (alloc (arguments_object [VNum (Fin 1)]) (loaded browser)))
         = (Throw e2, s2)).
Proof.
  destruct (audited_rethrows_original browser "f"
              (fun _ _ => throw (ThrowValue (VStr "boom"))) VNull [VNum (Fin 1)]
              (loaded browser)
              (snd (alloc (arguments_object [VNum (Fin 1)]) (loaded browser)))
              (ThrowValue (VStr "boom")) eq_refl) as [Rethrown [_ Steps]].
  split; [exact Rethrown | exact (Steps eq_refl)].
Defined.

(** ** Error reporting *)

Section PipelineFacts.

Variable env : Host.

(** A settled gate ignores what the hook calls on it afterwards. *)
Lemma run_gate_settled (done : list value -> M unit) (calls : list gate_call) :
  forall g s, g <> Pending -> run_gate calls g done s = (Ret g, s).
Proof.
  induction calls as [|c calls IH]; intros g s N; [reflexivity|].
  destruct c; destruct g; try contradiction; cbn [run_gate]; now apply IH.
Qed.

(** While oopsie.report is the namespace object, the callback of the gate
    throws before it calls anything: the state is left as it was. *)
Lemma run_gate_namespace (err : value) (h : handler) (calls : list gate_call) :
  forall g s reporter,
    oopsie_report s = ReportNamespace reporter ->
    snd (run_gate calls g (on_resolved err h) s) = s.
Proof.
  induction calls as [|c calls IH]; intros g s reporter R; [reflexivity|].
  destruct c; destruct g; cbn [run_gate]; try (now apply (IH _ _ reporter)).
  unfold bind, on_resolved, oopsie_report_apply, bind, gets, throw.
  now rewrite R.
Qed.

Lemma run_gate_namespace_resolve (err : value) (h : handler)
      (args : list value) (rest : list gate_call) (s : state) (reporter : option nat) :
  oopsie_report s = ReportNamespace reporter ->
  run_gate (resolve args :: rest) Pending (on_resolved err h) s
  = (Throw (ThrowNative "TypeError" "oopsie.report.apply is not a function"), s).
Proof.
  intros R. cbn [run_gate].
  unfold bind, on_resolved, oopsie_report_apply, bind, gets, throw.
  now rewrite R.
Qed.

(** What the pipeline does once oopsie.report is itself a function: the
    record and the arguments of resolve go to it, once, and the after hook
    follows. *)
Lemma reportError_report_is_function (err : value) (h : handler)
      (args : list value) (rest : list gate_call) (s : state) (id : nat) :
  lookup_handler env s err = Some h ->
  before h = Callable (resolve args :: rest) ->
  oopsie_report s = ReportFunction id ->
  reportError_gate env err s
  = (Ret Resolved,
     set_trace (trace s ++ [EvReporter id (err :: args)]
                        ++ match after h with
                           | Callable (after_hook i) => [EvAfter i]
                           | _ => []
                           end)%list s).
Proof.
  intros L B R. unfold reportError_gate, bind, gets. rewrite L.
  unfold extend_handler. cbn [before defaultHandler]. rewrite B.
  cbn [extend_field run_gate].
  unfold bind at 1. unfold on_resolved at 1. unfold toArray.
  unfold bind at 1. unfold oopsie_report_apply, bind, gets. rewrite R.
  unfold emit, modify. state_simpl.
  destruct (after h) as [|v|[|i]]; cbn [after extend_field defaultHandler];
    unfold ret, emit, modify; state_simpl;
    rewrite run_gate_settled by discriminate;
    rewrite <- ?app_assoc, ?app_nil_r; reflexivity.
Qed.

End PipelineFacts.

(** C5 (the code at the failing input, and for every report).  With a
    reporter supplied in oopsie.report.reporter, reportError leaves the state
    as it found it, whatever the record and the handlers: the reporter is not
    called and neither is an after hook.  For a record of a type without a
    handler the default before hook resolves the gate, and reportError then
    throws a TypeError out of the gate's callback. *)
Theorem reportError_reporter_never_called (env : Host) :
  (forall (s : state) (err : value) (reporter : option nat),
      snd (reportError env err (set_oopsie_report (ReportNamespace reporter) s))
      = set_oopsie_report (ReportNamespace reporter) s)
  /\ (let s := set_oopsie_report (ReportNamespace (Some 1)) (loaded browser) in
      let r := (factory browser "oopsieError" (VStr "boom") VUndefined ;;
                reportError browser (VObj 0)) s in
      fst r = Throw (ThrowNative "TypeError" "oopsie.report.apply is not a function")
      /\ trace (snd r) = []).
Proof.
  split.
  - intros s err reporter.
    unfold reportError, reportError_gate, bind, gets.
    set (s0 := set_oopsie_report (ReportNamespace reporter) s).
    set (h := extend_handler (lookup_handler env s0 err)).
    assert (G : forall calls,
               snd (run_gate calls Pending (on_resolved err h) s0) = s0).
    { intros calls. now apply (run_gate_namespace err h calls Pending s0 reporter). }
    destruct (before h) as [|v|calls].
    + specialize (G [resolve []]).
      destruct (run_gate [resolve []] Pending (on_resolved err h) s0) as [[g|e] s1];
        cbn in G; now subst.
    + specialize (G [resolve []]).
      destruct (run_gate [resolve []] Pending (on_resolved err h) s0) as [[g|e] s1];
        cbn in G; now subst.
    + specialize (G calls).
      destruct (run_gate calls Pending (on_resolved err h) s0) as [[g|e] s1];
        cbn in G; now subst.
  - vm_compute. split; reflexivity.
Qed.

(** C6.  When the before hook of the record's handler rejects the gate,
    reportError returns with the gate rejected and the state as it found it:
    no call of the reporter and no call of the after hook, whatever
    oopsie.report is bound to and whatever the hook calls on the gate
    afterwards. *)
Theorem reportError_rejected_gate (env : Host) (s : state) (err : value) (h : handler)
        (args : list value) (rest : list gate_call) :
  lookup_handler env s err = Some h ->
  before h = Callable (reject args :: rest) ->
  reportError_gate env err s = (Ret Rejected, s)
  /\ reportError env err s = (Ret tt, s).
Proof.
  intros L B.
  assert (G : reportError_gate env err s = (Ret Rejected, s)).
  { unfold reportError_gate, bind, gets. rewrite L.
    unfold extend_handler. cbn [before defaultHandler]. rewrite B.
    cbn [extend_field run_gate].
    apply run_gate_settled. discriminate. }
  split; [exact G|].
  unfold reportError, bind. now rewrite G.
Qed.

Lemma reportError_rejected_gate_witness :
  reportError_gate browser (VObj 0) cancelling_state = (Ret Rejected, cancelling_state)
  /\ reportError browser (VObj 0) cancelling_state = (Ret tt, cancelling_state).
Proof.
  apply (reportError_rejected_gate browser cancelling_state (VObj 0)
           (mkHandler (Callable [reject []; resolve [VStr "late"]])
                      (Callable (after_hook 1)))
           [] [resolve [VStr "late"]]);
    reflexivity.
Defined.

(** ** Further properties of the code *)

(** audit hands back the wrapper for the context it was given, or for a
    fresh empty object when that context is falsy. *)
Lemma audit_returns_audited (env : Host) (name : string) (fn : jsfun)
      (context : value) (s : state) :
  exists context' s',
    audit env name fn context s = (Ret (audited env name fn context'), s')
    /\ truthy context' = true.
Proof.
  unfold audit, bind, ret, alloc.
  destruct (truthy context) eqn:T.
  - now exists context, s.
  - now eexists; eexists.
Qed.

(** When the wrapped function returns, the wrapper returns the same value
    and leaves the state the function left. *)
Theorem audited_passes_result (env : Host) (name : string) (fn : jsfun)
        (context : value) (args : list value) (s s1 : state) (v : value) :
  fn context args (snd (alloc (arguments_object args) s)) = (Ret v, s1) ->
  audited env name fn context args s = (Ret v, s1).
Proof.
  intros H. unfold audited, bind, alloc, try_catch. state_simpl.
  unfold alloc in H. state_simpl_in H. now rewrite H.
Qed.

Lemma audited_passes_result_witness :
  audited browser "f" (fun _ args => ret (nth 0 args VUndefined)) VNull
          [VStr "ok"] (loaded browser)
  = (Ret (VStr "ok"), snd (alloc (arguments_object [VStr "ok"]) (loaded browser))).
Proof.
  apply (audited_passes_result browser "f" (fun _ args => ret (nth 0 args VUndefined))
           VNull [VStr "ok"] (loaded browser)).
  reflexivity.
Defined.

(** Of two translators that both accept a value, the one enumerated first
    translates it, whatever follows it in the table. *)
Theorem first_translator_wins (name : string) (t : translator)
        (rest : list (string * translator)) (h : heap) (v hit : value) :
  t_evaluator t h v = Ret hit ->
  truthy hit = true ->
  apply_translators ((name, t) :: rest) h v = t_translator t h v.
Proof.
  intros E T. cbn [apply_translators]. now rewrite E, T.
Qed.

Lemma first_translator_wins_witness :
  apply_translators
    [ ("mine", mkTranslator (fun _ _ => Ret (VBool true)) (fun _ _ => Ret (VStr "mine")));
      ("NaN", translator_NaN) ]
    [] (VNum NaN)
  = Ret (VStr "mine").
Proof.
  apply (first_translator_wins "mine"
           (mkTranslator (fun _ _ => Ret (VBool true)) (fun _ _ => Ret (VStr "mine")))
           [("NaN", translator_NaN)] [] (VNum NaN) (VBool true));
    reflexivity.
Defined.

(** The registry only grows: a factory call appends its record and leaves
    every earlier entry where it was; the record's number is its position. *)
Theorem factory_appends_record (env : Host) (type : string) (msg opts : value)
        (s : state) :
  errors (snd (factory env type msg opts s))
  = (errors s ++ [VObj (List.length (store s))])%list
  /\ get_prop (store (snd (factory env type msg opts s))) (List.length (store s)) "type"
     = VStr type.
Proof.
  destruct (factory_spec env type msg opts s) as [o [-> [_ [Ty _]]]].
  state_simpl. split; [reflexivity|].
  now rewrite get_prop_last, Ty.
Qed.

(** Stripping the token from a message registerError built gives back the
    message the factory was called with. *)
Theorem filterOutOopsieId_display_message (env : Host) (type : string)
        (msg opts : value) (s : state) :
  match get_prop (store (snd (factory env type msg opts s)))
                 (List.length (store s)) "message" with
  | VStr displayMessage =>
      filterOutOopsieId displayMessage = raw_message env (store s) msg
  | _ => False
  end.
Proof.
  destruct (factory_spec env type msg opts s) as [o [-> [_ [_ Mg]]]].
  state_simpl. rewrite get_prop_last, Mg. cbn [p_val].
  apply filterOutOopsieId_oopsieID.
Qed.

(** Once loaded, the library has its three factories and its six
    translators, in the order the file registers them. *)
Theorem loaded_registrations (env : Host) :
  map fst (errorFactories (loaded env))
  = ["assertionError"; "javascriptError"; "oopsieError"]
  /\ map fst (translators (loaded env))
     = ["undefined"; "function"; "RegExp"; "NaN"; "infinite"; "jQuery"]
  /\ errors (loaded env) = []
  /\ oopsie_report (loaded env) = ReportNamespace None.
Proof.
  repeat split.
Qed.

(* ================================================================== *)
(** ** The token and the lookup, further *)

(** The token is found again wherever a text without underscores puts it:
    matching errorIdRegExp against such a text followed by the token for
    [pos] and anything else finds the token right after that text, and the
    digits it captures read back as [pos]. *)
Theorem token_found_after_prefix (pre : string) (pos : nat) (rest : string) :
  no_underscore pre = true ->
  exists m,
    errorIdRegExp_exec (pre ++ oopsieID pos ++ rest) = Some m
    /\ m_index m = String.length pre
    /\ m_0 m = oopsieID pos
    /\ parseInt (m_1 m) = pos.
Proof.
  intros H. unfold errorIdRegExp_exec. rewrite (exec_from_skips pre 0 _ H).
  rewrite (exec_from_here _ _ _ _ (match_here_oopsieID pos rest)).
  eexists. split; [reflexivity|]. cbn [m_index m_0 m_1].
  repeat split. apply parseInt_dec.
Qed.

Lemma token_found_after_prefix_witness :
  exists m,
    errorIdRegExp_exec ("Uncaught Error: " ++ oopsieID 12 ++ "7__ disk full") = Some m
    /\ m_index m = 16
    /\ m_0 m = oopsieID 12
    /\ parseInt (m_1 m) = 12.
Proof.
  exact (token_found_after_prefix "Uncaught Error: " 12 "7__ disk full" eq_refl).
Defined.

(** retrieveError never hands out a record: a text without a token gets
    null, a text whose token names a position past the end of the registry
    gets undefined, and whatever the text the answer is one of the two. *)
Theorem retrieveError_answers_none (errs : list value) :
  (forall msg, errorIdRegExp_exec msg = None -> retrieveError errs msg = VNull)
  /\ (forall pre pos rest,
         no_underscore pre = true ->
         List.length errs <= pos ->
         retrieveError errs (pre ++ oopsieID pos ++ rest) = VUndefined)
  /\ (forall msg, retrieveError errs msg = VNull \/ retrieveError errs msg = VUndefined).
Proof.
  split; [|split].
  - intros msg H. unfold retrieveError. now rewrite H.
  - intros pre pos rest H L. unfold retrieveError, array_get, errorIdRegExp_exec.
    rewrite (exec_from_skips pre 0 _ H).
    rewrite (exec_from_here _ _ _ _ (match_here_oopsieID pos rest)).
    cbn [m_1]. rewrite parseInt_dec.
    destruct (Nat.leb_spec (List.length errs) pos); [|lia].
    now apply nth_overflow.
  - intros msg. unfold retrieveError, array_get.
    destruct (errorIdRegExp_exec msg) as [m|]; [|now left].
    destruct (Nat.leb_spec (List.length errs) (parseInt (m_1 m))); [|now left].
    right. now apply nth_overflow.
Qed.

Lemma retrieveError_answers_none_witness :
  retrieveError [VObj 0] "no token here" = VNull
  /\ retrieveError [VObj 0] ("Uncaught Error: " ++ oopsieID 3 ++ "late") = VUndefined.
Proof.
  split.
  - exact (proj1 (retrieveError_answers_none [VObj 0]) "no token here" eq_refl).
  - apply (proj1 (proj2 (retrieveError_answers_none [VObj 0])) "Uncaught Error: " 3 "late").
    + reflexivity.
    + simpl. lia.
Defined.

(* ================================================================== *)
(** ** Factories, the registry and assertions, further *)

Lemma get_prop_old (h extra : heap) (l : loc) (k : string) :
  l < List.length h -> get_prop (h ++ extra)%list l k = get_prop h l k.
Proof.
  intros H. unfold get_prop, props_of, class_of. now rewrite nth_error_app1.
Qed.

Lemma registry_ok_factory (env : Host) (type : string) (msg opts : value) (s : state) :
  registry_ok s -> registry_ok (snd (factory env type msg opts s)).
Proof.
  intros R. destruct (factory_spec env type msg opts s) as [o [-> [_ [_ Mg]]]].
  unfold registry_ok. state_simpl. intros pos P.
  rewrite length_app in P. cbn [List.length] in P.
  destruct (Nat.eq_dec pos (List.length (errors s))) as [->|N].
  - exists (List.length (store s)), (raw_message env (store s) msg).
    rewrite nth_error_app2, Nat.sub_diag by lia.
    rewrite length_app, get_prop_last, Mg. cbn. repeat split. lia.
  - destruct (R pos) as [l [raw [E [V G]]]]; [lia|].
    exists l, raw. rewrite nth_error_app1 by lia.
    rewrite length_app, get_prop_old by exact V. repeat split; [exact E | lia | exact G].
Qed.

(** Objects added at the end of the heap leave the registry well kept. *)
Lemma registry_ok_append (extra : heap) (s : state) :
  registry_ok s -> registry_ok (set_store (store s ++ extra)%list s).
Proof.
  intros R pos P. state_simpl_in P. state_simpl.
  destruct (R pos P) as [l [raw [E [V G]]]].
  exists l, raw. rewrite length_app, get_prop_old by exact V.
  repeat split; [exact E | lia | exact G].
Qed.

Lemma registry_ok_call_builtin (member : builtin) (msg opts : value) (s : state) :
  registry_ok s -> registry_ok (snd (call_builtin member msg opts s)).
Proof.
  intros R. unfold call_builtin.
  destruct (member (store s) msg opts) as [r made]. cbn [snd].
  now apply registry_ok_append.
Qed.

Lemma registry_ok_makeError (env : Host) (type : string) (msg opts : value)
      (s : state) :
  registry_ok s -> registry_ok (snd (makeError env type msg opts s)).
Proof.
  intros R. unfold makeError, bind, gets, lookup_factory.
  destruct (assoc_has type (errorFactories s)); [now apply registry_ok_factory|].
  destruct (inherited env type) as [member|]; [now apply registry_ok_call_builtin|].
  destruct (assoc_has "oopsieError" (errorFactories s)); [now apply registry_ok_factory|].
  destruct (inherited env "oopsieError") as [member|];
    [now apply registry_ok_call_builtin | exact R].
Qed.

(** The registry stays well kept through makeError: after the call, as
    before it, every entry of [errors] is an object of the heap whose
    message starts with the token of the entry's own position. *)
Theorem makeError_keeps_registry (env : Host) (type : string) (msg opts : value)
        (s : state) :
  registry_ok s -> registry_ok (snd (makeError env type msg opts s)).
Proof.
  apply registry_ok_makeError.
Qed.

Lemma makeError_keeps_registry_witness :
  registry_ok (snd (makeError browser "doesNotExist" (VStr "boom") VUndefined
                              (snd (makeError browser "assertionError" (VStr "first")
                                              VUndefined (loaded browser))))).
Proof.
  apply makeError_keeps_registry. apply makeError_keeps_registry.
  intros pos P. simpl in P. lia.
Defined.

(** A type registered with errorFactory is the type makeError then uses:
    errorFactory on a new name returns, stores the defaults with the given
    options written over them and touches neither the heap nor the registry;
    makeError for that name then builds a record of that very type whose
    message is the token followed by the message given, unchanged. *)
Theorem errorFactory_then_makeError (env : Host) (type : string) (opts msg : value)
        (s : state) :
  assoc_has type (errorFactories s) = false ->
  let s1 := snd (errorFactory env type opts s) in
  let s2 := snd (makeError env type msg VUndefined s1) in
  fst (errorFactory env type opts s) = Ret type
  /\ assoc_get type (errorFactories s1)
     = Some (extend [("reportImmediately", VBool false)] (extend_source (store s) opts))
  /\ errors s1 = errors s
  /\ store s1 = store s
  /\ errors s2 = (errors s ++ [VObj (List.length (store s))])%list
  /\ get_prop (store s2) (List.length (store s)) "type" = VStr type
  /\ get_prop (store s2) (List.length (store s)) "message"
     = VStr (oopsieID (List.length (errors s)) ++ raw_message env (store s) msg).
Proof.
  intros H. cbv zeta.
  assert (E : errorFactory env type opts s
              = (Ret type,
                 set_errorFactories
                   (assoc_put type
                      (extend [("reportImmediately", VBool false)]
                              (extend_source (store s) opts))
                      (errorFactories s)) s)).
  { unfold errorFactory, bind, gets, assert, modify, ret. now rewrite H. }
  rewrite E. state_simpl.
  assert (G : assoc_has type
                (errorFactories
                   (set_errorFactories
                      (assoc_put type
                         (extend [("reportImmediately", VBool false)]
                                 (extend_source (store s) opts))
                         (errorFactories s)) s)) = true).
  { state_simpl. unfold assoc_has. now rewrite assoc_get_put. }
  rewrite (makeError_registered env _ _ _ _ G).
  match goal with |- context [factory env type msg VUndefined ?s1] =>
    destruct (factory_spec env type msg VUndefined s1) as [o [-> [_ [Ty Mg]]]] end.
  state_simpl. rewrite !get_prop_last, Ty, Mg, assoc_get_put.
  repeat split.
Qed.

Lemma errorFactory_then_makeError_witness :
  let s1 := snd (errorFactory browser "networkError" VUndefined (loaded browser)) in
  let s2 := snd (makeError browser "networkError" (VStr "timeout") VUndefined s1) in
  fst (errorFactory browser "networkError" VUndefined (loaded browser)) = Ret "networkError"
  /\ assoc_get "networkError" (errorFactories s1) = Some [("reportImmediately", VBool false)]
  /\ errors s1 = []
  /\ store s1 = []
  /\ errors s2 = [VObj 0]
  /\ get_prop (store s2) 0 "type" = VStr "networkError"
  /\ get_prop (store s2) 0 "message" = VStr "__oopsieID_0__timeout".
Proof.
  exact (errorFactory_then_makeError browser "networkError" VUndefined (VStr "timeout")
                                     (loaded browser) eq_refl).
Defined.

(** fail, and a failing assert.  Each argument is serialized first.  When
    that works, the texts are joined by newlines into the message of a new
    assertionError record, and what is thrown is what makeError returned,
    undefined; an alert and a debugger stop happen exactly when their
    settings are truthy, before the record is made.  When a serialization
    throws, fail throws that and has done nothing else. *)
Theorem fail_throws (env : Host) (msgArgs : list value) (s : state) :
  assoc_has "assertionError" (errorFactories s) = true ->
  (forall texts,
      stringify_each env msgArgs s = (Ret texts, s) ->
      exists s',
        fail env msgArgs s = (Throw (ThrowValue VUndefined), s')
        /\ errors s' = (errors s ++ [VObj (List.length (store s))])%list
        /\ get_prop (store s') (List.length (store s)) "type" = VStr "assertionError"
        /\ get_prop (store s') (List.length (store s)) "message"
           = VStr (oopsieID (List.length (errors s)) ++ array_join env (store s) nl texts)
        /\ trace s'
           = (trace s
              ++ (if truthy (alertOnAssertFailure s)
                  then [EvAlert (array_join env (store s) nl texts)] else [])
              ++ (if truthy (debugOnAssertFailure s) then [EvDebugger] else []))%list)
  /\ (forall e,
         stringify_each env msgArgs s = (Throw e, s) ->
         fail env msgArgs s = (Throw e, s))
  /\ (exists r, stringify_each env msgArgs s = (r, s)).
Proof.
  intros F. split; [|split].
  - intros texts E. unfold fail, assert. unfold bind at 1. rewrite E.
    unfold emit. unfold bind, gets, modify, ret, throw. state_simpl.
    destruct (truthy (alertOnAssertFailure s)); state_simpl;
      destruct (truthy (debugOnAssertFailure s)); state_simpl;
      match goal with
      | |- context [makeError env "assertionError" ?m VUndefined ?s2] =>
          rewrite (makeError_registered env "assertionError" m VUndefined s2 F);
          destruct (factory_spec env "assertionError" m VUndefined s2)
            as [o [-> [_ [Ty Mg]]]]
      end;
      state_simpl; eexists; (split; [reflexivity|]);
      state_simpl; rewrite !get_prop_last, Ty, Mg;
      cbn [p_val raw_message strict_eqb to_string app];
      rewrite ?app_nil_r, <- ?app_assoc; repeat split.
  - intros e E. unfold fail, assert. unfold bind at 1. now rewrite E.
  - pose proof (stringify_each_state env msgArgs s) as St.
    destruct (stringify_each env msgArgs s) as [r s1]. cbn in St. subst s1.
    now exists r.
Qed.

Lemma fail_throws_witness :
  (exists s',
      fail browser [VStr "x must be positive"; VNum (Fin (-1))] (loaded browser)
      = (Throw (ThrowValue VUndefined), s')
      /\ errors s' = [VObj 0]
      /\ get_prop (store s') 0 "type" = VStr "assertionError"
      /\ get_prop (store s') 0 "message"
         = VStr (oopsieID 0 ++ array_join browser [] nl
                   [VStr (dquote ++ "x must be positive" ++ dquote); VStr "-1"])
      /\ trace s' = [])
  /\ fail throwing_functions [VObj 0]
          (set_store [ mkObj CObject [mkProp "toJSON" (VObj 1) true];
                       mkObj CFunction [] ]
                     (loaded throwing_functions))
     = (Throw (ThrowNative "TypeError" "Cannot read property 'message' of null"),
        set_store [ mkObj CObject [mkProp "toJSON" (VObj 1) true];
                    mkObj CFunction [] ]
                  (loaded throwing_functions)).
Proof.
  split.
  - apply (proj1 (fail_throws browser [VStr "x must be positive"; VNum (Fin (-1))]
                              (loaded browser) eq_refl)).
    vm_compute. reflexivity.
  - apply (proj1 (proj2 (fail_throws throwing_functions [VObj 0]
                           (set_store [ mkObj CObject [mkProp "toJSON" (VObj 1) true];
                                        mkObj CFunction [] ]
                                      (loaded throwing_functions)) eq_refl))).
    vm_compute. reflexivity.
Defined.

(* ================================================================== *)
(** ** Handlers and reports, further *)

(** What addHandler stores is what reportError finds for a record of that
    type: the given fields, with the default for each one left out, in place
    of any handler stored under the name before; the handlers of the other
    types stay. *)
Theorem addHandler_then_lookup (env : Host) (name : string) (o : option handler)
        (s : state) (err : value) :
  get (store s) err "type" = Ret (VStr name) ->
  lookup_handler env (snd (addHandler name o s)) err = Some (extend_handler o)
  /\ before (extend_handler o)
     = match o with
       | Some h => match before h with
                   | Missing => Callable [resolve []]
                   | given => given
                   end
       | None => Callable [resolve []]
       end
  /\ forall other, other <> name ->
       assoc_get other (reportHandlers (snd (addHandler name o s)))
       = assoc_get other (reportHandlers s).
Proof.
  intros T. unfold addHandler, modify, lookup_handler. state_simpl.
  rewrite T. cbn [to_string]. rewrite assoc_get_put.
  split; [reflexivity|]. split.
  - destruct o as [h|]; [|reflexivity]. cbn. now destruct (before h).
  - intros other N. now apply assoc_get_put_other.
Qed.

Lemma addHandler_then_lookup_witness :
  lookup_handler browser
                 (snd (addHandler "oopsieError"
                                  (Some (mkHandler Missing (Callable (after_hook 1))))
                                  reporting_state))
                 (VObj 0)
  = Some (mkHandler (Callable [resolve []]) (Callable (after_hook 1))).
Proof.
  exact (proj1 (addHandler_then_lookup browser "oopsieError"
                  (Some (mkHandler Missing (Callable (after_hook 1))))
                  reporting_state (VObj 0) eq_refl)).
Defined.

Lemma reportError_report_is_function_witness :
  reportError_gate browser (VObj 0) reporting_state
  = (Ret Resolved,
     set_trace [EvReporter 7 [VObj 0; VStr "extra"]; EvAfter 1] reporting_state).
Proof.
  exact (reportError_report_is_function browser (VObj 0)
           (mkHandler (Callable [resolve [VStr "extra"]; resolve []; reject []])
                      (Callable (after_hook 1)))
           [VStr "extra"] [resolve []; reject []] reporting_state 7
           eq_refl eq_refl eq_refl).
Defined.

(** Without a usable before hook the gate opens at once: when no handler is
    stored for the record's type, when reading the type throws (the record
    is undefined or null), or when the stored before is not a function,
    reportError resolves the gate itself, with no extra argument. *)
Theorem reportError_ungated (env : Host) (err : value) (s : state) (id : nat) :
  match lookup_handler env s err with
  | None => True
  | Some h => match before h with Callable _ => False | _ => True end
  end ->
  oopsie_report s = ReportFunction id ->
  reportError_gate env err s
  = (Ret Resolved,
     set_trace (trace s ++ [EvReporter id [err]]
                        ++ match lookup_handler env s err with
                           | Some h => match after h with
                                       | Callable (after_hook i) => [EvAfter i]
                                       | _ => []
                                       end
                           | None => []
                           end)%list s).
Proof.
  intros U R. unfold reportError_gate, bind, gets.
  assert (G : forall hd,
             run_gate [resolve []] Pending (on_resolved err hd) s
             = (Ret Resolved,
                set_trace (trace s ++ [EvReporter id [err]]
                                   ++ match after hd with
                                      | Callable (after_hook i) => [EvAfter i]
                                      | _ => []
                                      end)%list s)).
  { intros hd. cbn [run_gate]. unfold bind at 1. unfold on_resolved, toArray.
    unfold bind at 1. unfold oopsie_report_apply, bind, gets. rewrite R.
    unfold emit, modify. state_simpl.
    destruct (after hd) as [|v|[|i]]; unfold ret, emit, modify; state_simpl;
      rewrite <- ?app_assoc, ?app_nil_r; reflexivity. }
  destruct (lookup_handler env s err) as [h|].
  - unfold extend_handler. cbn [before after defaultHandler].
    destruct (before h) as [|v|calls]; try contradiction; cbn [extend_field].
    + rewrite G. cbn [after]. now destruct (after h) as [|w|[|i]].
    + rewrite G. cbn [after]. now destruct (after h) as [|w|[|i]].
  - cbn [extend_handler before defaultHandler]. rewrite G. reflexivity.
Qed.

Lemma reportError_ungated_witness :
  reportError_gate browser VUndefined reporting_state
  = (Ret Resolved, set_trace [EvReporter 7 [VUndefined]] reporting_state).
Proof.
  exact (reportError_ungated browser VUndefined reporting_state 7 I eq_refl).
Defined.

Lemma onerror_unfolds (env : Host) (error_name msg url : string)
      (line : value) (s : state) :
  onerror env error_name msg url line s
  = (err <- makeError env "javascriptError"
                      (VStr (array_join env (store s) nl [VStr msg; VStr url; line]))
                      VUndefined ;;
     reportError env err) s.
Proof.
  unfold onerror. unfold bind at 1. unfold gets at 1.
  unfold bind at 1. unfold gets at 1.
  unfold bind at 1. unfold lift at 1.
  assert (K : isOopsieError error_name (store s) (retrieveError (errors s) msg)
              = Ret (VBool false)).
  { unfold retrieveError, array_get.
    destruct (errorIdRegExp_exec msg) as [m|]; [|reflexivity].
    destruct (Nat.leb_spec (List.length (errors s)) (parseInt (m_1 m))); [|reflexivity].
    now rewrite nth_overflow. }
  rewrite K. cbn [truthy negb]. reflexivity.
Qed.

(** The uncaught-error handler never recognises a registered error: what
    retrieveError gives it is null or undefined, so it always makes a new
    javascriptError record out of the message, the location and the line,
    joined by newlines.  The record is stored, and reportError is called with
    what makeError returned, undefined. *)
Theorem onerror_reports_undefined (env : Host) (error_name msg url : string)
        (line : value) (s : state) :
  assoc_has "javascriptError" (errorFactories s) = true ->
  let text := array_join env (store s) nl [VStr msg; VStr url; line] in
  let s1 := snd (factory env "javascriptError" (VStr text) VUndefined s) in
  onerror env error_name msg url line s = reportError env VUndefined s1
  /\ errors s1 = (errors s ++ [VObj (List.length (store s))])%list
  /\ get_prop (store s1) (List.length (store s)) "type" = VStr "javascriptError"
  /\ get_prop (store s1) (List.length (store s)) "message"
     = VStr (oopsieID (List.length (errors s)) ++ text).
Proof.
  intros F. cbv zeta. rewrite onerror_unfolds.
  unfold bind at 1.
  rewrite (makeError_registered env _ _ _ _ F).
  match goal with |- context [factory env ?t ?m ?o s] =>
    destruct (factory_spec env t m o s) as [rec [-> [_ [Ty Mg]]]] end.
  state_simpl. rewrite !get_prop_last, Ty, Mg.
  repeat split.
Qed.

Lemma onerror_reports_undefined_witness :
  let text := array_join browser [] nl
                         [VStr "Uncaught ReferenceError: x is not defined";
                          VStr "app.js"; VNum (Fin 12)] in
  let s1 := snd (factory browser "javascriptError" (VStr text) VUndefined (loaded browser)) in
  onerror browser "error" "Uncaught ReferenceError: x is not defined" "app.js"
          (VNum (Fin 12)) (loaded browser)
  = reportError browser VUndefined s1
  /\ errors s1 = [VObj 0]
  /\ get_prop (store s1) 0 "type" = VStr "javascriptError"
  /\ get_prop (store s1) 0 "message" = VStr (oopsieID 0 ++ text).
Proof.
  exact (onerror_reports_undefined browser "error"
           "Uncaught ReferenceError: x is not defined" "app.js" (VNum (Fin 12))
           (loaded browser) eq_refl).
Defined.

(* ================================================================== *)
(** ** Wrappers, further *)

Lemma all_dots_dots (n : nat) : all_dots (dots n) = true.
Proof.
  induction n as [|n IH]; [reflexivity | exact IH].
Qed.

Lemma not_all_dots (p x : string) :
  p <> EmptyString -> ends_with_dot p = false -> all_dots (p ++ x) = false.
Proof.
  induction p as [|c p IH]; intros N E; [contradiction|].
  simpl (String c p ++ x). cbn [all_dots].
  destruct p as [|c' p].
  - cbn [ends_with_dot] in E. now rewrite E.
  - cbn [ends_with_dot] in E. rewrite IH; [apply andb_false_r | discriminate | exact E].
Qed.

Lemma strip_trailing_dots_dots (n : nat) : strip_trailing_dots (dots n) = EmptyString.
Proof.
  destruct n as [|n]; [reflexivity|].
  cbn [dots strip_trailing_dots].
  change (String "." (dots n)) with (dots (S n)). now rewrite all_dots_dots.
Qed.

Lemma strip_trailing_dots_app (p : string) (n : nat) :
  ends_with_dot p = false -> strip_trailing_dots (p ++ dots n) = p.
Proof.
  induction p as [|c p IH]; intros E.
  - apply strip_trailing_dots_dots.
  - simpl (String c p ++ dots n). cbn [strip_trailing_dots].
    change (String c (p ++ dots n)) with (String c p ++ dots n).
    rewrite (not_all_dots (String c p) (dots n)); [|discriminate | exact E].
    f_equal. apply IH.
    destruct p as [|c' p]; [reflexivity | exact E].
Qed.

(** One dot between prefix and name: however many dots the given prefix
    ends in, none or several, the label is the prefix without them, one dot,
    and the name.  No prefix gives the bare name; a prefix of dots alone
    gives a dot and the name. *)
Theorem auditMethods_label_one_dot :
  (forall (p : string) (n : nat) (name : string),
      p <> EmptyString ->
      ends_with_dot p = false ->
      auditMethods_label (p ++ dots n) name = p ++ "." ++ name)
  /\ (forall name, auditMethods_label EmptyString name = name)
  /\ (forall n name, auditMethods_label (dots (S n)) name = "." ++ name).
Proof.
  split; [|split].
  - intros p n name N E. unfold auditMethods_label, auditMethods_prefix.
    destruct p as [|c p]; [contradiction|].
    cbn [truthy append]. change (String c (p ++ dots n)) with (String c p ++ dots n).
    rewrite (strip_trailing_dots_app _ n E). now rewrite string_app_assoc.
  - reflexivity.
  - intros n name. unfold auditMethods_label, auditMethods_prefix.
    cbn [dots truthy]. change (String "." (dots n)) with (dots (S n)).
    now rewrite strip_trailing_dots_dots.
Qed.

Lemma auditMethods_label_one_dot_witness :
  auditMethods_label "Archive" "log" = "Archive.log"
  /\ auditMethods_label "Archive..." "log" = "Archive.log"
  /\ auditMethods_label "a.b." "log" = "a.b.log".
Proof.
  destruct auditMethods_label_one_dot as [One _].
  split; [|split].
  - apply (One "Archive" 0 "log"); [discriminate | reflexivity].
  - apply (One "Archive" 3 "log"); [discriminate | reflexivity].
  - apply (One "a.b" 1 "log"); [discriminate | reflexivity].
Defined.

Lemma audited_catches (env : Host) (name : string) (fn : jsfun)
      (context : value) (args : list value) (s s1 : state) (e : thrown) :
  fn context args (snd (alloc (arguments_object args) s)) = (Throw e, s1) ->
  exists s2, audited env name fn context args s = (Throw e, s2).
Proof.
  intros H. unfold audited, bind, alloc, try_catch. state_simpl.
  unfold alloc in H. state_simpl_in H. rewrite H.
  destruct (augment_throws env name context (List.length (store s)) e s1) as [e' ->].
  eexists. reflexivity.
Qed.

Lemma audited_returns (env : Host) (name : string) (fn : jsfun)
      (context : value) (args : list value) (s s1 : state) (v : value) :
  fn context args (snd (alloc (arguments_object args) s)) = (Ret v, s1) ->
  audited env name fn context args s = (Ret v, s1).
Proof.
  intros H. unfold audited, bind, alloc, try_catch. state_simpl.
  unfold alloc in H. state_simpl_in H. now rewrite H.
Qed.

(** Wrapping composes.  A wrapped function wrapped once more is still
    called with the context of the inner wrapper and the arguments given; what
    it returns comes back through both layers, and what it throws is thrown
    by the outer layer as it is. *)
Theorem audited_twice (env : Host) (inner outer : string) (fn : jsfun)
        (context context' : value) (args : list value) (s : state) :
  let wrapped : jsfun := fun _ a => audited env inner fn context a in
  let entered := snd (alloc (arguments_object args)
                            (snd (alloc (arguments_object args) s))) in
  (forall v s1,
      fn context args entered = (Ret v, s1) ->
      audited env outer wrapped context' args s = (Ret v, s1))
  /\ (forall e s1,
         fn context args entered = (Throw e, s1) ->
         exists s2, audited env outer wrapped context' args s = (Throw e, s2)).
Proof.
  cbv zeta. split.
  - intros v s1 H. apply audited_returns. now apply audited_returns.
  - intros e s1 H.
    destruct (audited_catches env inner fn context args _ s1 e H) as [s2 H2].
    exact (audited_catches env outer _ context' args s s2 e H2).
Qed.

Lemma audited_twice_witness :
  (audited browser "outer"
           (fun _ a => audited browser "inner" (fun this _ => ret this) (VStr "mine") a)
           (VStr "yours") [] (loaded browser)
   = (Ret (VStr "mine"),
      snd (alloc (arguments_object [])
                 (snd (alloc (arguments_object []) (loaded browser))))))
  /\ exists s2,
       audited browser "outer"
               (fun _ a => audited browser "inner"
                                   (fun _ _ => throw (ThrowValue (VStr "boom")))
                                   (VStr "mine") a)
               (VStr "yours") [] (loaded browser)
       = (Throw (ThrowValue (VStr "boom")), s2).
Proof.
  split.
  - apply (proj1 (audited_twice browser "inner" "outer" (fun this _ => ret this)
                                (VStr "mine") (VStr "yours") [] (loaded browser))).
    reflexivity.
  - apply (proj2 (audited_twice browser "inner" "outer"
                                (fun _ _ => throw (ThrowValue (VStr "boom")))
                                (VStr "mine") (VStr "yours") [] (loaded browser))
                 (ThrowValue (VStr "boom"))
                 (snd (alloc (arguments_object [])
                             (snd (alloc (arguments_object []) (loaded browser)))))).
    reflexivity.
Defined.

(** What the inner try block leaves behind on a page without a global
    named message: the state as it was, or the state after the one call of
    makeError. *)
Lemma augment_state (env : Host) (name : string) (context : value) (arguments : loc)
      (err : thrown) (s : state) :
  global_message env = None ->
  snd (augment env name context arguments err s) = s
  \/ snd (augment env name context arguments err s)
     = snd (makeError env "oopsieError" VUndefined VUndefined s).
Proof.
  intros G.
  destruct (augment_throws env name context arguments err s) as [e' ->]. cbn [snd].
  destruct (augment_steps_undeclared env name context arguments err s G) as [e2 [s' St]].
  rewrite St. cbn [snd].
  exact (augment_steps_throw_state env _ _ _ _ _ _ _ St).
Qed.

Lemma registry_ok_alloc (o : obj) (s : state) :
  registry_ok s -> registry_ok (snd (alloc o s)).
Proof.
  intros R pos P. unfold alloc in *. state_simpl. state_simpl_in P.
  destruct (R pos P) as [l [raw [E [V G]]]].
  exists l, raw. rewrite length_app, get_prop_old by exact V.
  repeat split; [exact E | lia | exact G].
Qed.

(** On a page with an element whose id is message the wrapper breaks the
    registry: a registered record thrown through it comes out with that
    element as its message, the token gone. *)
Example audited_breaks_registry :
  let fn : jsfun := fun _ _ =>
    makeError (page_with_message 0) "assertionError" (VStr "inside") VUndefined ;;
    throw (ThrowValue (VObj 2)) in
  let r := (element <- alloc (mkObj CObject []) ;;
            audited (page_with_message 0) "f" fn (VStr "context") [])
             (loaded (page_with_message 0)) in
  fst r = Throw (ThrowValue (VObj 2))
  /\ errors (snd r) = [VObj 2]
  /\ get_prop (store (snd r)) 2 "message" = VObj 0
  /\ ~ registry_ok (snd r).
Proof.
  cbv zeta. split; [|split; [|split]]; try (vm_compute; reflexivity).
  intros R. destruct (R 0) as [l [raw [E [_ G]]]].
  - vm_compute. lia.
  - vm_compute in E. injection E as <-. vm_compute in G. discriminate G.
Qed.

(** On a page without a global named message the wrapper leaves the
    registry well kept: if the wrapped function keeps every registered
    message starting with the token of its position, so does the wrapped
    call, whether the function returns or throws; no registered message is
    rewritten on the way. *)
Theorem audited_keeps_registry (env : Host) (name : string) (fn : jsfun)
        (context : value) (args : list value) (s : state) :
  global_message env = None ->
  (forall s0, registry_ok s0 -> registry_ok (snd (fn context args s0))) ->
  registry_ok s ->
  registry_ok (snd (audited env name fn context args s)).
Proof.
  intros G Fn R. unfold audited, bind, try_catch.
  pose proof (registry_ok_alloc (arguments_object args) s R) as R1.
  destruct (alloc (arguments_object args) s) as [[a|e] s0] eqn:A;
    [|unfold alloc in A; discriminate].
  cbn [snd] in R1. specialize (Fn s0 R1).
  destruct (fn context args s0) as [[v|err] s1]; cbn [snd] in Fn; [exact Fn|].
  pose proof (augment_state env name context a err s1 G) as St.
  destruct (augment env name context a err s1) as [[v|e2] s2]; cbn [snd] in St |- *;
    unfold throw; cbn [snd];
    (destruct St as [->| ->]; [exact Fn | now apply registry_ok_makeError]).
Qed.

Lemma audited_keeps_registry_witness :
  registry_ok (snd (audited browser "f"
                            (fun _ _ => makeError browser "assertionError" (VStr "inside")
                                                  VUndefined ;;
                                        throw (ThrowValue (VStr "boom")))
                            VNull [] (loaded browser))).
Proof.
  apply audited_keeps_registry.
  - reflexivity.
  - intros s0 R. unfold bind.
    pose proof (registry_ok_makeError browser "assertionError" (VStr "inside")
                                      VUndefined s0 R) as K.
    destruct (makeError browser "assertionError" (VStr "inside") VUndefined s0)
      as [[v|e] s1]; exact K.
  - intros pos P. simpl in P. lia.
Defined.

(* ================================================================== *)
(** ** Translators, further *)

Lemma stringify_of_replaced (env : Host) (ts : list (string * translator)) (h : heap)
      (v : value) (t : string) (seen' : list value) :
  toJSON env h EmptyString v = Ret v ->
  circularRefSafeTranslate env ts h [] v = Done (VStr t) seen' ->
  stringify env ts h v = Ret (VStr (Quote t)).
Proof.
  intros J H. unfold stringify, stringify_fuel, JSON_stringify. cbn [Str].
  now rewrite J, H.
Qed.

(** A function that has a toJSON method is not handed to the replacer:
    what the method returns is, here undefined. *)
Example stringify_function_with_toJSON :
  stringify browser (translators (loaded browser))
            [ mkObj CFunction [mkProp "toJSON" (VObj 1) true]; mkObj CFunction [] ]
            (VObj 0)
  = Ret (VStr (Quote "undefined")).
Proof.
  vm_compute. reflexivity.
Qed.

(** What the translators registered at load time make of the values JSON
    has no text for, seen through stringify: undefined, NaN and the
    infinities come out as strings naming them; a function as [function]
    with its own name, with anonymous when that name is empty, with nothing
    when it has no name of its own; a regular expression as its source text;
    a jQuery wrapper as [jQuery: ] around the markup the DOM gives for it,
    and as [translation error]: with the error's message when the DOM
    raises instead.  The objects are objects the built-in hands to the
    replacer as they are, and whose members are data: they have no toJSON
    method and no accessor property. *)
Theorem stringify_default_translations (env : Host) (h : heap) :
  let str := stringify env (translators (loaded env)) h in
  let plain l := toJSON env h EmptyString (VObj l) = Ret (VObj l)
                 /\ forall k, getter env h l k = None in
  str VUndefined = Ret (VStr (Quote "undefined"))
  /\ str (VNum NaN) = Ret (VStr (Quote "NaN"))
  /\ str (VNum PosInfinity) = Ret (VStr (Quote "Infinity"))
  /\ str (VNum NegInfinity) = Ret (VStr (Quote "-Infinity"))
  /\ (forall l, plain l -> class_of h l = CFunction -> hasOwn h l "name" = false ->
        str (VObj l) = Ret (VStr (Quote "[function]")))
  /\ (forall l, plain l -> class_of h l = CFunction -> hasOwn h l "name" = true ->
        get_prop h l "name" = VStr EmptyString ->
        str (VObj l) = Ret (VStr (Quote "[function: anonymous]")))
  /\ (forall l c name, plain l -> class_of h l = CFunction -> hasOwn h l "name" = true ->
        get_prop h l "name" = VStr (String c name) ->
        str (VObj l) = Ret (VStr (Quote ("[function: " ++ String c name ++ "]"))))
  /\ (forall l text, plain l -> class_of h l = CRegExp text ->
        str (VObj l) = Ret (VStr (Quote text)))
  /\ (forall l markup, plain l -> class_of h l = CObject ->
        truthy (get_prop h l "jquery") = true ->
        jQueryToString env h (VObj l) = Ret markup ->
        str (VObj l) = Ret (VStr (Quote ("[jQuery: " ++ markup ++ "]"))))
  /\ (forall l n m, plain l -> class_of h l = CObject ->
        truthy (get_prop h l "jquery") = true ->
        jQueryToString env h (VObj l) = Throw (ThrowNative n m) ->
        str (VObj l) = Ret (VStr (Quote ("[translation error]: " ++ m)))).
Proof.
  cbv zeta. rewrite loaded_translators.
  repeat match goal with |- _ /\ _ => split end.
  - reflexivity.
  - reflexivity.
  - reflexivity.
  - reflexivity.
  - intros l P C N. apply stringify_of_replaced with (seen' := []); [exact (proj1 P)|].
    unfold circularRefSafeTranslate, default_translators. cbn [typeof]. rewrite C.
    cbn [jstype_eqb apply_translators translator_undefined translator_function
         t_evaluator t_translator strict_eqb truthy].
    unfold isFunction. cbn [typeof]. rewrite C. cbn [jstype_eqb truthy].
    unfold getFunctionName. rewrite N. reflexivity.
  - intros l P C N G. apply stringify_of_replaced with (seen' := []); [exact (proj1 P)|].
    unfold circularRefSafeTranslate, default_translators. cbn [typeof]. rewrite C.
    cbn [jstype_eqb apply_translators translator_undefined translator_function
         t_evaluator t_translator strict_eqb truthy].
    unfold isFunction. cbn [typeof]. rewrite C. cbn [jstype_eqb truthy].
    unfold getFunctionName. rewrite N, G. reflexivity.
  - intros l c name P C N G. apply stringify_of_replaced with (seen' := []); [exact (proj1 P)|].
    unfold circularRefSafeTranslate, default_translators. cbn [typeof]. rewrite C.
    cbn [jstype_eqb apply_translators translator_undefined translator_function
         t_evaluator t_translator strict_eqb truthy].
    unfold isFunction. cbn [typeof]. rewrite C. cbn [jstype_eqb truthy].
    unfold getFunctionName. rewrite N, G. reflexivity.
  - intros l text P C. apply stringify_of_replaced with (seen' := [VObj l]); [exact (proj1 P)|].
    unfold circularRefSafeTranslate, default_translators. cbn [typeof]. rewrite C.
    cbn [jstype_eqb inArray apply_translators translator_undefined translator_function
         translator_RegExp t_evaluator t_translator strict_eqb truthy app].
    unfold isFunction. cbn [typeof]. rewrite C. cbn [jstype_eqb truthy to_string].
    rewrite C. reflexivity.
  - intros l markup P C J Q. apply stringify_of_replaced with (seen' := [VObj l]); [exact (proj1 P)|].
    unfold circularRefSafeTranslate, default_translators. cbn [typeof]. rewrite C.
    cbn [jstype_eqb inArray apply_translators translator_undefined translator_function
         translator_RegExp translator_NaN translator_infinite translator_jQuery
         t_evaluator t_translator strict_eqb truthy app isReallyNaN isInfinite orb].
    unfold isFunction. cbn [typeof]. rewrite C. cbn [jstype_eqb truthy].
    unfold isJQuery. cbn [truthy get]. rewrite J, Q. reflexivity.
  - intros l n m P C J Q. apply stringify_of_replaced with (seen' := [VObj l]); [exact (proj1 P)|].
    unfold circularRefSafeTranslate, default_translators. cbn [typeof]. rewrite C.
    cbn [jstype_eqb inArray apply_translators translator_undefined translator_function
         translator_RegExp translator_NaN translator_infinite translator_jQuery
         t_evaluator t_translator strict_eqb truthy app isReallyNaN isInfinite orb].
    unfold isFunction. cbn [typeof]. rewrite C. cbn [jstype_eqb truthy].
    unfold isJQuery. cbn [truthy get]. rewrite J, Q. reflexivity.
Qed.

Lemma stringify_default_translations_witness :
  let h := [ mkObj CFunction [mkProp "name" (VStr "save") false];
             mkObj CFunction [mkProp "name" (VStr EmptyString) false];
             mkObj CFunction [];
             mkObj (CRegExp "/ab+c/g") [] ] in
  stringify browser (translators (loaded browser)) h (VObj 0)
  = Ret (VStr (Quote "[function: save]"))
  /\ stringify browser (translators (loaded browser)) h (VObj 1)
     = Ret (VStr (Quote "[function: anonymous]"))
  /\ stringify browser (translators (loaded browser)) h (VObj 2)
     = Ret (VStr (Quote "[function]"))
  /\ stringify browser (translators (loaded browser)) h (VObj 3)
     = Ret (VStr (Quote "/ab+c/g")).
Proof.
  cbv zeta.
  destruct (stringify_default_translations browser
              [ mkObj CFunction [mkProp "name" (VStr "save") false];
                mkObj CFunction [mkProp "name" (VStr EmptyString) false];
                mkObj CFunction [];
                mkObj (CRegExp "/ab+c/g") [] ])
    as [_ [_ [_ [_ [Bare [Anon [Named [Reg [_ _]]]]]]]]].
  split; [|split; [|split]].
  - apply (Named 0 "s"%char "ave"); try reflexivity. split; reflexivity.
  - apply (Anon 1); try reflexivity. split; reflexivity.
  - apply (Bare 2); try reflexivity. split; reflexivity.
  - apply (Reg 3 "/ab+c/g"); try reflexivity. split; reflexivity.
Defined.

Lemma apply_translators_claimed (ts more : list (string * translator))
      (h : heap) (v : value) :
  claimed ts h v = true ->
  apply_translators (ts ++ more)%list h v = apply_translators ts h v.
Proof.
  induction ts as [|[n t] ts IH]; cbn [claimed apply_translators app]; [discriminate|].
  destruct (t_evaluator t h v) as [hit|e]; [|reflexivity].
  destruct (truthy hit); [reflexivity | exact IH].
Qed.

Lemma apply_translators_unclaimed (ts more : list (string * translator))
      (h : heap) (v : value) :
  claimed ts h v = false ->
  apply_translators (ts ++ more)%list h v = apply_translators more h v.
Proof.
  induction ts as [|[n t] ts IH]; cbn [claimed apply_translators app]; [reflexivity|].
  destruct (t_evaluator t h v) as [hit|e]; [|discriminate].
  destruct (truthy hit); [discriminate | exact IH].
Qed.

(** A translator added under a name that is an array index does not go
    last: the loop visits such names first, so the translator named 0 is
    asked before every translator of the library. *)
Example addTranslator_index_goes_first :
  let ev : heap -> value -> outcome value := fun _ _ => Ret (VBool true) in
  let tr : heap -> value -> outcome value := fun _ _ => Ret (VStr "mine") in
  let ts' := translators (snd (addTranslator browser "0" ev tr (loaded browser))) in
  map fst ts' = ["0"; "undefined"; "function"; "RegExp"; "NaN"; "infinite"; "jQuery"]
  /\ apply_translators ts' [] VUndefined = Ret (VStr "mine").
Proof.
  vm_compute. split; reflexivity.
Qed.

(** A translator added under a new name goes last, unless the name is an
    array index (or __proto__, which an assignment does not store as a
    property): for a value that a translator already in the table accepts
    (or whose evaluator raises) the translation is what it was, and the new
    translator is asked only about the values no earlier one accepts. *)
Theorem addTranslator_goes_last (env : Host) (name : string)
        (evaluator translate : heap -> value -> outcome value)
        (s : state) (h : heap) (v : value) :
  name <> EmptyString ->
  name <> "__proto__" ->
  array_index name = None ->
  assoc_has name (translators s) = false ->
  let ts' := translators (snd (addTranslator env name evaluator translate s)) in
  fst (addTranslator env name evaluator translate s) = Ret tt
  /\ (claimed (translators s) h v = true ->
      apply_translators ts' h v = apply_translators (translators s) h v)
  /\ (claimed (translators s) h v = false ->
      apply_translators ts' h v
      = apply_translators [(name, mkTranslator evaluator translate)] h v).
Proof.
  intros N _ I F. cbv zeta.
  rewrite (addTranslator_overwrites env name evaluator translate s N).
  state_simpl. rewrite (assoc_put_fresh _ _ _ F I).
  split; [reflexivity|]. split.
  - apply apply_translators_claimed.
  - apply apply_translators_unclaimed.
Qed.

Lemma addTranslator_goes_last_witness :
  let ev : heap -> value -> outcome value := fun _ _ => Ret (VBool true) in
  let tr : heap -> value -> outcome value := fun _ _ => Ret (VStr "mine") in
  let ts' := translators (snd (addTranslator browser "mine" ev tr (loaded browser))) in
  apply_translators ts' [] VUndefined = Ret (VStr "undefined")
  /\ apply_translators ts' [] (VNum (Fin 1)) = Ret (VStr "mine").
Proof.
  cbv zeta. split.
  - apply (proj1 (proj2 (addTranslator_goes_last browser "mine"
                           (fun _ _ => Ret (VBool true)) (fun _ _ => Ret (VStr "mine"))
                           (loaded browser) [] VUndefined
                           ltac:(discriminate) ltac:(discriminate) eq_refl eq_refl))).
    reflexivity.
  - apply (proj2 (proj2 (addTranslator_goes_last browser "mine"
                           (fun _ _ => Ret (VBool true)) (fun _ _ => Ret (VStr "mine"))
                           (loaded browser) [] (VNum (Fin 1))
                           ltac:(discriminate) ltac:(discriminate) eq_refl eq_refl))).
    reflexivity.
Defined.
